(** * innumerable: thread-local event counters and their report

    Shallow embedding of [src/lib.rs]: the per-thread counter maps
    ([THREAD_COUNTS], [create_local_map]), the global registry [MAPS],
    the [event!] macro and [print_counts]. *)

From Stdlib Require Import ZArith Lia String List Bool.
From Stdlib Require Import Floats.SpecFloat Sorting.Sorted.
From stdpp Require Import base list gmap strings pretty.
Import ListNotations.
Open Scope Z_scope.

(** ** Rust primitive data *)

(** A [&'static str]: the address of the literal and its bytes.  The
    address is kept so that statements can distinguish two literals with
    equal contents; [PartialEq], [Hash] and [Ord] for [str] only look at
    the bytes. *)
Record rstr := RStr { str_ptr : Z; str_bytes : string }.

(** [impl PartialEq for str]: byte-wise equality. *)
Definition str_eqb (a b : rstr) : bool := String.eqb (str_bytes a) (str_bytes b).

(** [impl Ord for str]: lexicographic order on the bytes. *)
Definition str_cmp (a b : rstr) : comparison := String.compare (str_bytes a) (str_bytes b).

(** [u64] arithmetic of a release build: [+] wraps modulo 2^64
    (a debug build panics instead). *)
Definition u64_modulus : Z := 2 ^ 64.
Definition u64_add (a b : Z) : Z := (a + b) mod u64_modulus.

(** The key type [(&'static str, i64)] and its derived [PartialEq]. *)
Definition key : Type := (rstr * Z)%type.
Definition key_eqb (k1 k2 : key) : bool :=
  str_eqb (fst k1) (fst k2) && Z.eqb (snd k1) (snd k2).

(** ** Thread-local maps

    [hashbrown::HashMap<(&'static str, i64), u64>] as its list of entries
    in iteration order (new entries are appended; the hash order is
    unspecified and no statement below depends on it). *)
Definition hmap : Type := list (key * Z).

(** [*map.entry(k).or_insert(0) += 1]: an equal key (by [PartialEq]) keeps
    its stored key and gets its count incremented; otherwise [(k, 0)] is
    inserted and then incremented. *)
Fixpoint entry_incr (k : key) (m : hmap) : hmap :=
  match m with
  | [] => [(k, u64_add 0 1)]
  | (k', v) :: m' =>
      if key_eqb k k' then (k', u64_add v 1) :: m'
      else (k', v) :: entry_incr k m'
  end.

(** [map.get(&k)]. *)
Fixpoint hmap_get (k : key) (m : hmap) : option Z :=
  match m with
  | [] => None
  | (k', v) :: m' => if key_eqb k k' then Some v else hmap_get k m'
  end.

(** ** Process state

    [heap] holds the [Arc<Mutex<HashMap>>] allocations, indexed by
    address; [maps] is the registry [MAPS: Mutex<Vec<Map>>];
    [thread_counts] is the per-thread slot of the [THREAD_COUNTS]
    thread-local (thread id to the address of its map, once initialised). *)
Record world := World {
  heap : list hmap;
  maps : list nat;
  thread_counts : gmap nat nat
}.

Definition init_world : world := World [] [] ∅.

(** [create_local_map]: allocate an empty map and push a clone of the
    [Arc] onto [MAPS]. *)
Definition create_local_map (t : nat) (w : world) : world * nat :=
  let a := length (heap w) in
  (World (heap w ++ [[]]) (maps w ++ [a]) (<[t := a]> (thread_counts w)), a).

(** [THREAD_COUNTS.with]: the thread's map, created on first use. *)
Definition with_thread_counts (t : nat) (w : world) : world * nat :=
  match thread_counts w !! t with
  | Some a => (w, a)
  | None => create_local_map t w
  end.

(** [event!(name, index)] on thread [t]; [index] is the value of
    [$index as i64]. *)
Definition event (t : nat) (name : rstr) (index : Z) (w : world) : world :=
  let '(w1, a) := with_thread_counts t w in
  match heap w1 !! a with
  | Some m => World (<[a := entry_incr (name, index) m]> (heap w1)) (maps w1) (thread_counts w1)
  | None => w1
  end.

(** [event!(name)], which expands to [event!(name, 0)]. *)
Definition event_default (t : nat) (name : rstr) (w : world) : world :=
  event t name 0 w.

(** The map of thread [t], if it has one. *)
Definition thread_map (w : world) (t : nat) : option hmap :=
  match thread_counts w !! t with
  | Some a => heap w !! a
  | None => None
  end.

(** ** [BTreeMap]s of [print_counts]

    A [BTreeMap] as its entries in ascending key order. *)

(** [BTreeMap<i64, u64>::insert(index, count)]: replaces the value of an
    existing key, otherwise inserts in order. *)
Fixpoint bt_insert (i c : Z) (m : list (Z * Z)) : list (Z * Z) :=
  match m with
  | [] => [(i, c)]
  | (j, d) :: r =>
      match Z.compare i j with
      | Lt => (i, c) :: m
      | Eq => (j, c) :: r
      | Gt => (j, d) :: bt_insert i c r
      end
  end.

Definition events_map : Type := list (rstr * list (Z * Z)).

(** [events.entry(name).or_insert_with(BTreeMap::new)] followed by [f] on
    the value; an existing entry keeps its key. *)
Fixpoint bt_entry_update (nm : rstr) (f : list (Z * Z) -> list (Z * Z))
    (ev : events_map) : events_map :=
  match ev with
  | [] => [(nm, f [])]
  | (n', v) :: r =>
      match str_cmp nm n' with
      | Lt => (nm, f []) :: ev
      | Eq => (n', f v) :: r
      | Gt => (n', v) :: bt_entry_update nm f r
      end
  end.

(** The inner loop over one locked map:
    [events.entry(name).or_insert_with(BTreeMap::new).insert(index, count)]. *)
Definition merge_map (m : hmap) (ev : events_map) : events_map :=
  fold_left (fun ev '((name, index), count) =>
               bt_entry_update name (bt_insert index count) ev) m ev.

(** ** [f64] and its formatting *)

Definition f64_prec : Z := 53.
Definition f64_emax : Z := 1024.
Definition f64 : Type := spec_float.

(** [x as f64] for an integer [x]: round to nearest, ties to even. *)
Definition f64_of_Z (x : Z) : f64 := binary_normalize f64_prec f64_emax x 0 false.
Definition f64_div (x y : f64) : f64 := SFdiv f64_prec f64_emax x y.
Definition f64_mul (x y : f64) : f64 := SFmul f64_prec f64_emax x y.
Definition f64_100 : f64 := f64_of_Z 100.

(** [num / den] rounded to nearest, ties to even ([den > 0]). *)
Definition div_round_even (num den : Z) : Z :=
  let q := num / den in
  let r := num mod den in
  match Z.compare (2 * r) den with
  | Lt => q
  | Gt => q + 1
  | Eq => if Z.odd q then q + 1 else q
  end.

(** The value [m * 2^e] of a finite float, scaled by [10^k] and rounded to
    an integer, ties to even. *)
Definition scaled_round (m e : Z) (k : Z) : Z :=
  if 0 <=? e then m * 10 ^ k * 2 ^ e
  else div_round_even (m * 10 ^ k) (2 ^ (- e)).

Definition sign_str (s : bool) : string := if s then "-" else "".

(** [format!("{:.1}", x)]: the exact decimal value rounded to one decimal
    place, ties to even (core's [flt2dec] exact mode). *)
Definition fmt_f64_prec1 (x : f64) : string :=
  match x with
  | S754_zero s => sign_str s +:+ "0.0"
  | S754_infinity s => sign_str s +:+ "inf"
  | S754_nan => "NaN"
  | S754_finite s m e =>
      let q := scaled_round (Zpos m) e 1 in
      sign_str s +:+ pretty (q / 10) +:+ "." +:+ pretty (q mod 10)
  end.

(** Nearest multiple of [10^k], ties to even. *)
Definition round_pow10 (v : Z) (k : nat) : Z :=
  div_round_even v (10 ^ Z.of_nat k) * 10 ^ Z.of_nat k.

(** The shortest representation of the integral float [x] with value [v]:
    the coarsest multiple of a power of ten that reads back as [x]. *)
Fixpoint shortest_int (x : f64) (v : Z) (k : nat) : Z :=
  match k with
  | O => v
  | S k' =>
      let d := round_pow10 v k in
      if SFeqb (f64_of_Z d) x then d else shortest_int x v k'
  end.

(** [format!("{}", x)] for a float holding an integer value (the only
    floats [print_counts] prints this way are [u64] sums): core prints the
    shortest decimal that reads back as [x], padded with zeros, without a
    fractional part. *)
Definition fmt_f64_integral (x : f64) : string :=
  match x with
  | S754_zero s => sign_str s +:+ "0"
  | S754_infinity s => sign_str s +:+ "inf"
  | S754_nan => "NaN"
  | S754_finite s m e =>
      let v := scaled_round (Zpos m) e 0 in
      sign_str s +:+ pretty (shortest_int (S754_finite false m e) v 20)
  end.

(** ** The report lines *)

(** [counts.values().copied().sum::<u64>()]. *)
Definition sum_counts (counts : list (Z * Z)) : Z :=
  fold_left (fun acc '(_, c) => u64_add acc c) counts 0.

(** [println!("{name}: {sum}")]. *)
Definition sum_line (name : rstr) (sum : f64) : string :=
  str_bytes name +:+ ": " +:+ fmt_f64_integral sum.

(** [println!("{name}[{index}]: {:.1}%", count as f64 / sum * 100.0)]. *)
Definition pct_line (name : rstr) (sum : f64) (ic : Z * Z) : string :=
  str_bytes name +:+ "[" +:+ pretty (fst ic) +:+ "]: "
    +:+ fmt_f64_prec1 (f64_mul (f64_div (f64_of_Z (snd ic)) sum) f64_100) +:+ "%".

(** [counts.len() > 1 || !counts.contains_key(&0)]. *)
Definition show_breakdown (counts : list (Z * Z)) : bool :=
  (1 <? length counts)%nat || negb (existsb (fun ic => Z.eqb (fst ic) 0) counts).

(** ** [print_counts] as a state program

    The machine is the process state together with the trace of its
    observable effects: lock operations on [MAPS] and on the maps, and the
    lines written by [println!]. *)
Inductive effect :=
| AcquireRegistry
| ReleaseRegistry
| AcquireMap (a : nat)
| ReleaseMap (a : nat)
| Println (s : string).

Record machine := Machine { mworld : world; mtrace : list effect }.

Definition M (A : Type) : Type := machine -> A * machine.

Definition ret {A} (x : A) : M A := fun s => (x, s).
Definition bind {A B} (c : M A) (k : A -> M B) : M B :=
  fun s => let (x, s') := c s in k x s'.

Declare Scope m_scope.
Notation "x <- c ;; k" := (bind c (fun x => k))
  (at level 100, c at next level, right associativity) : m_scope.
Notation "c ;; k" := (bind c (fun _ => k))
  (at level 100, right associativity) : m_scope.
Open Scope m_scope.

Definition emit (e : effect) : M unit :=
  fun s => (tt, Machine (mworld s) (mtrace s ++ [e])).

(** The contents of the map at address [a]. *)
Definition map_at (w : world) (a : nat) : hmap :=
  match (heap w !! a : option hmap) with Some m => m | None => [] end.

(** [MAPS.lock().unwrap()]: the registered maps. *)
Definition lock_registry : M (list nat) :=
  fun s => (maps (mworld s), Machine (mworld s) (mtrace s ++ [AcquireRegistry])).
Definition unlock_registry : M unit := emit ReleaseRegistry.

(** [map.lock().unwrap()]: the contents of one map. *)
Definition lock_map (a : nat) : M hmap :=
  fun s => (map_at (mworld s) a, Machine (mworld s) (mtrace s ++ [AcquireMap a])).
Definition unlock_map (a : nat) : M unit := emit (ReleaseMap a).

Definition println (line : string) : M unit := emit (Println line).

(** A [for] loop carrying an accumulator. *)
Fixpoint mfold {A B} (f : B -> A -> M B) (l : list A) (b : B) : M B :=
  match l with
  | [] => ret b
  | x :: l' => b' <- f b x ;; mfold f l' b'
  end.

(** A [for] loop. *)
Fixpoint miter {A} (f : A -> M unit) (l : list A) : M unit :=
  match l with
  | [] => ret tt
  | x :: l' => f x ;; miter f l'
  end.

(** [print_counts]. The guard [maps] of [MAPS] lives to the end of the
    function; each map guard is dropped at the end of its loop iteration. *)
Definition print_counts : M unit :=
  ms <- lock_registry ;;
  events <- mfold (fun ev a =>
                     m <- lock_map a ;;
                     let ev' := merge_map m ev in
                     unlock_map a ;;
                     ret ev') ms [] ;;
  miter (fun '(name, counts) =>
           let sum := f64_of_Z (sum_counts counts) in
           println (sum_line name sum) ;;
           if show_breakdown counts
           then miter (fun ic => println (pct_line name sum ic)) counts
           else ret tt) events ;;
  unlock_registry.

(** The lines written to standard output, in order. *)
Fixpoint printed (tr : list effect) : list string :=
  match tr with
  | [] => []
  | Println s :: tr' => s :: printed tr'
  | _ :: tr' => printed tr'
  end.

(** Run [print_counts] on a process state with an empty trace. *)
Definition run_print_counts (w : world) : machine := snd (print_counts (Machine w [])).

Definition report (w : world) : list string := printed (mtrace (run_print_counts w)).

(** A thread-tagged call [event!(name, index)]. *)
Definition call : Type := (nat * rstr * Z)%type.

Definition run_events (calls : list call) (w : world) : world :=
  fold_left (fun w '(t, name, index) => event t name index w) calls w.

(** ** Derived views used in the statements *)

(** The [events] map built by the merge loop. *)
Definition aggregate (w : world) : events_map :=
  fold_left (fun ev a => merge_map (map_at w a) ev) (maps w) [].

(** The lines printed for one entry of [events]. *)
Definition report_block (name : rstr) (counts : list (Z * Z)) : list string :=
  let sum := f64_of_Z (sum_counts counts) in
  sum_line name sum
    :: (if show_breakdown counts then map (pct_line name sum) counts else []).

(** The count of [key] in a map, [0] when absent. *)
Definition count_in (m : hmap) (k : key) : Z := default 0 (hmap_get k m).


(** ** Views used by the statements and proofs *)

Definition name_lt (x y : rstr * list (Z * Z)) : Prop := str_cmp (fst x) (fst y) = Lt.
Definition idx_lt (x y : Z * Z) : Prop := fst x < fst y.


(** The invariant of the [events] map: names strictly ascending, and every
    inner map non-empty with strictly ascending indices. *)
Definition events_ok (ev : events_map) : Prop :=
  Sorted name_lt ev /\ Forall (fun e => snd e <> [] /\ Sorted idx_lt (snd e)) ev.

(** The part of a key its [PartialEq] looks at. *)
Definition kc (k : key) : string * Z := (str_bytes (fst k), snd k).

Definition keys_distinct (m : hmap) : Prop := NoDup (map (fun e => kc (fst e)) m).

(** The number of calls [event!(n, i)] made on thread [t] whose key has
    the contents [q]. *)
Fixpoint cnt (t : nat) (q : string * Z) (calls : list call) : nat :=
  match calls with
  | [] => 0
  | (t', n, i) :: r =>
      (if bool_decide (t' = t /\ (str_bytes n, i) = q) then 1 else 0) + cnt t q r
  end%nat.

(** Well-formedness of the process state: the registry lists every map
    once, in allocation order, and each map belongs to exactly one thread. *)
Definition wf (w : world) : Prop :=
  maps w = seq 0 (length (heap w))
  /\ (forall t a, thread_counts w !! t = Some a -> a < length (heap w))%nat
  /\ (forall t1 t2 a, thread_counts w !! t1 = Some a -> thread_counts w !! t2 = Some a -> t1 = t2)
  /\ (forall a, a < length (heap w) -> exists t, thread_counts w !! t = Some a)%nat.

(** The map [m] of thread [t] after [calls]: one entry per key contents,
    holding the number of calls with that key modulo 2^64. *)
Definition rep (t : nat) (calls : list call) (m : hmap) : Prop :=
  keys_distinct m
  /\ (forall k c, In (k, c) m ->
        c = Z.of_nat (cnt t (kc k) calls) mod u64_modulus /\ (1 <= cnt t (kc k) calls)%nat)
  /\ (forall q, (1 <= cnt t q calls)%nat -> exists k c, In (k, c) m /\ kc k = q).

Definition inv (calls : list call) (w : world) : Prop :=
  wf w /\ forall t, match thread_counts w !! t with
                   | Some a => exists m, heap w !! a = Some m /\ rep t calls m
                   | None => forall q, cnt t q calls = 0%nat
                   end.

(** The count of key [k] in thread [t]'s map, [0] without a map. *)
Definition count_of (w : world) (t : nat) (k : key) : Z :=
  count_in (default [] (thread_map w t)) k.

(** Where a count of the merged view comes from: an entry of a registered
    map whose key has the same contents. *)
Definition src (w : world) (s : string) (i c : Z) : Prop :=
  exists a k, In a (maps w) /\ In (k, c) (map_at w a) /\ kc k = (s, i).

Definition ev_src (w : world) (e : rstr * list (Z * Z)) : Prop :=
  forall i c, In (i, c) (snd e) -> src w (str_bytes (fst e)) i c.

(** Calls with key contents [q], on any thread. *)
Fixpoint cnt_all (q : string * Z) (calls : list call) : nat :=
  match calls with
  | [] => 0
  | (t', n, i) :: r => (if bool_decide ((str_bytes n, i) = q) then 1 else 0) + cnt_all q r
  end%nat.

Fixpoint sum_cnt (s : string) (is : list Z) (calls : list call) : nat :=
  match is with
  | [] => 0
  | i :: is' => cnt_all (s, i) calls + sum_cnt s is' calls
  end%nat.

(** Following the words of the report's locking discipline: [true] when a
    map lock is acquired while the registry lock is held. *)
Fixpoint map_locked_under_registry (held : bool) (tr : list effect) : bool :=
  match tr with
  | [] => false
  | AcquireRegistry :: tr' => map_locked_under_registry true tr'
  | ReleaseRegistry :: tr' => map_locked_under_registry false tr'
  | AcquireMap _ :: tr' => held || map_locked_under_registry held tr'
  | _ :: tr' => map_locked_under_registry held tr'
  end.

(** Named call sites of the examples. *)
Definition lit (p : Z) (s : string) : rstr := RStr p s.

(** The threads that called [event!], in the order of their first call,
    which is the order in which their [THREAD_COUNTS] maps were created. *)
Definition first_threads (calls : list call) : list nat :=
  fold_left (fun ts '(t, _, _) => if bool_decide (t ∈ ts) then ts else ts ++ [t]) calls [].

(** [events.get(name).and_then(|counts| counts.get(&index))]. *)
Definition events_get (nm : rstr) (i : Z) (ev : events_map) : option Z :=
  match List.find (fun e => str_eqb (fst e) nm) ev with
  | Some (_, counts) => option_map snd (List.find (fun ic => Z.eqb (fst ic) i) counts)
  | None => None
  end.

(** The count of [k] in the last registered map holding it. *)
Definition last_count (w : world) (k : key) : option Z :=
  fold_left (fun acc a => match hmap_get k (map_at w a) with Some c => Some c | None => acc end)
    (maps w) None.

(** The number of calls with key [k] made on the last thread, in order of
    first call, that made one, modulo 2^64. *)
Definition last_thread_count (calls : list call) (k : key) : option Z :=
  fold_left (fun acc t => let n := cnt t (kc k) calls in
                          if (1 <=? n)%nat then Some (Z.of_nat n mod u64_modulus) else acc)
    (first_threads calls) None.

(** ** Running [print_counts] *)

Section Trace.

Variable w : world.

Lemma mfold_merge_trace (l : list nat) (ev : events_map) (tr : list effect) :
  mfold (fun ev a => m <- lock_map a ;; let ev' := merge_map m ev in
                     unlock_map a ;; ret ev') l ev (Machine w tr)
  = (fold_left (fun ev a => merge_map (map_at w a) ev) l ev,
     Machine w (tr ++ concat (map (fun a => [AcquireMap a; ReleaseMap a]) l))).
Proof.
  revert ev tr; induction l as [|a l IH]; intros ev tr; simpl.
  - by rewrite app_nil_r.
  - unfold bind at 1; simpl. unfold bind at 1; simpl.
    unfold lock_map, unlock_map, emit, bind, ret; simpl.
    rewrite IH. by rewrite <- !app_assoc.
Qed.

Lemma miter_println_trace {A} (g : A -> string) (l : list A) (tr : list effect) :
  miter (fun x => println (g x)) l (Machine w tr)
  = (tt, Machine w (tr ++ map (fun x => Println (g x)) l)).
Proof.
  revert tr; induction l as [|x l IH]; intros tr; simpl.
  - by rewrite app_nil_r.
  - unfold bind, println, emit; simpl. rewrite IH. by rewrite <- app_assoc.
Qed.

Lemma miter_blocks_trace (ev : events_map) (tr : list effect) :
  miter (fun '(name, counts) =>
           let sum := f64_of_Z (sum_counts counts) in
           println (sum_line name sum) ;;
           if show_breakdown counts
           then miter (fun ic => println (pct_line name sum ic)) counts
           else ret tt) ev (Machine w tr)
  = (tt, Machine w (tr ++ map Println
                          (concat (map (fun '(name, counts) => report_block name counts) ev)))).
Proof.
  revert tr; induction ev as [|[name counts] ev IH]; intros tr; simpl.
  - by rewrite app_nil_r.
  - unfold bind at 1. unfold bind at 1. unfold println at 1, emit; simpl.
    destruct (show_breakdown counts).
    + rewrite miter_println_trace. simpl. rewrite IH.
      rewrite map_app, !map_map. by rewrite <- !app_assoc.
    + unfold ret. simpl. rewrite IH. by rewrite <- !app_assoc.
Qed.

End Trace.

Lemma print_counts_run (w : world) (tr : list effect) :
  print_counts (Machine w tr)
  = (tt, Machine w (tr ++ [AcquireRegistry]
                       ++ concat (map (fun a => [AcquireMap a; ReleaseMap a]) (maps w))
                       ++ map Println (concat (map (fun '(name, counts) => report_block name counts)
                                                 (aggregate w)))
                       ++ [ReleaseRegistry])).
Proof.
  unfold print_counts. unfold bind at 1, lock_registry. simpl.
  unfold bind at 1. rewrite mfold_merge_trace.
  unfold bind at 1. rewrite miter_blocks_trace.
  unfold unlock_registry, emit. simpl. unfold aggregate.
  by rewrite <- !app_assoc.
Qed.

Lemma printed_app (t1 t2 : list effect) : printed (t1 ++ t2) = printed t1 ++ printed t2.
Proof. induction t1 as [|[] t1 IH]; simpl; rewrite ?IH; done. Qed.

Lemma printed_map_Println (l : list string) : printed (map Println l) = l.
Proof. induction l as [|x l IH]; simpl; rewrite ?IH; done. Qed.

Lemma printed_locks (l : list nat) :
  printed (concat (map (fun a => [AcquireMap a; ReleaseMap a]) l)) = [].
Proof. induction l as [|a l IH]; simpl; done. Qed.

Lemma report_blocks (w : world) :
  report w = concat (map (fun '(name, counts) => report_block name counts) (aggregate w)).
Proof.
  unfold report, run_print_counts. rewrite print_counts_run. simpl.
  rewrite !printed_app, printed_locks, printed_map_Println. simpl.
  by rewrite app_nil_r.
Qed.

(** ** Order of the [BTreeMap]s *)

Lemma ascii_compare_refl (a : Ascii.ascii) : Ascii.compare a a = Eq.
Proof. unfold Ascii.compare. apply N.compare_refl. Qed.

Lemma ascii_compare_lt_trans (a b c : Ascii.ascii) :
  Ascii.compare a b = Lt -> Ascii.compare b c = Lt -> Ascii.compare a c = Lt.
Proof. unfold Ascii.compare. rewrite !N.compare_lt_iff. lia. Qed.

Lemma string_compare_lt_trans (s1 s2 s3 : string) :
  String.compare s1 s2 = Lt -> String.compare s2 s3 = Lt -> String.compare s1 s3 = Lt.
Proof.
  revert s2 s3; induction s1 as [|c1 s1 IH]; intros [|c2 s2] [|c3 s3]; simpl;
    try done.
  destruct (Ascii.compare c1 c2) eqn:E12; try done;
    destruct (Ascii.compare c2 c3) eqn:E23; try done.
  - apply Ascii.compare_eq_iff in E12, E23. subst. rewrite ascii_compare_refl. apply IH.
  - apply Ascii.compare_eq_iff in E12. subst. by rewrite E23.
  - apply Ascii.compare_eq_iff in E23. subst. by rewrite E12.
  - intros _ _. by rewrite (ascii_compare_lt_trans _ _ _ E12 E23).
Qed.


#[local] Instance name_lt_trans : Transitive name_lt.
Proof. intros x y z. unfold name_lt, str_cmp. apply string_compare_lt_trans. Qed.

#[local] Instance idx_lt_trans : Transitive idx_lt.
Proof. intros x y z. unfold idx_lt. lia. Qed.

Lemma bt_insert_hd (i c j d : Z) (r : list (Z * Z)) :
  j < i -> HdRel idx_lt (j, d) r -> HdRel idx_lt (j, d) (bt_insert i c r).
Proof.
  intros Hji Hhd. destruct r as [|[k e] r]; simpl.
  - constructor. exact Hji.
  - inversion Hhd; subst. destruct (Z.compare_spec i k); constructor; done.
Qed.

Lemma bt_insert_sorted (i c : Z) (m : list (Z * Z)) :
  Sorted idx_lt m -> Sorted idx_lt (bt_insert i c m).
Proof.
  induction m as [|[j d] r IH]; intros Hs; simpl.
  - repeat constructor.
  - inversion Hs as [|? ? Hr Hhd]; subst.
    destruct (Z.compare_spec i j) as [->|Hlt|Hgt].
    + constructor; [done|]. destruct r as [|[k e] r]; constructor.
      by inversion Hhd.
    + constructor; [done|]. constructor. exact Hlt.
    + constructor; [by apply IH|]. apply bt_insert_hd; [lia|done].
Qed.

Lemma bt_insert_nonempty (i c : Z) (m : list (Z * Z)) : bt_insert i c m <> [].
Proof. destruct m as [|[j d] r]; simpl; [done|]. by destruct (Z.compare i j). Qed.

Lemma str_cmp_antisym (a b : rstr) : str_cmp a b = CompOpp (str_cmp b a).
Proof. unfold str_cmp. apply String.compare_antisym. Qed.

Lemma bt_entry_update_hd (nm : rstr) f (n' : rstr) (v : list (Z * Z)) (r : events_map) :
  str_cmp n' nm = Lt -> HdRel name_lt (n', v) r ->
  HdRel name_lt (n', v) (bt_entry_update nm f r).
Proof.
  intros Hlt Hhd. destruct r as [|[n'' v''] r]; simpl.
  - constructor. exact Hlt.
  - inversion Hhd; subst. destruct (str_cmp nm n''); constructor; done.
Qed.

Lemma bt_entry_update_sorted (nm : rstr) f (ev : events_map) :
  Sorted name_lt ev -> Sorted name_lt (bt_entry_update nm f ev).
Proof.
  induction ev as [|[n' v] r IH]; intros Hs; simpl.
  - repeat constructor.
  - inversion Hs as [|? ? Hr Hhd]; subst.
    destruct (str_cmp nm n') eqn:E.
    + constructor; [done|]. destruct r as [|[k e] r]; constructor.
      by inversion Hhd.
    + constructor; [done|]. constructor. exact E.
    + constructor; [by apply IH|]. apply bt_entry_update_hd; [|done].
      by rewrite str_cmp_antisym, E.
Qed.

Lemma bt_entry_update_forall (P : list (Z * Z) -> Prop) (nm : rstr) f (ev : events_map) :
  P (f []) -> (forall v, P v -> P (f v)) ->
  Forall (fun e => P (snd e)) ev -> Forall (fun e => P (snd e)) (bt_entry_update nm f ev).
Proof.
  intros H0 Hf; induction ev as [|[n' v] r IH]; intros Hall; simpl.
  - by constructor.
  - inversion Hall as [|? ? Hv Hr]; subst. simpl in Hv.
    destruct (str_cmp nm n'); constructor; simpl; auto.
Qed.

Lemma merge_map_ok (m : hmap) (ev : events_map) :
  events_ok ev -> events_ok (merge_map m ev).
Proof.
  unfold merge_map. revert ev; induction m as [|[[name index] count] m IH];
    intros ev [Hs Hall]; simpl; [done|].
  apply IH. split.
  - by apply bt_entry_update_sorted.
  - apply (bt_entry_update_forall (fun v => v <> [] /\ Sorted idx_lt v)); [| |done].
    + split; [apply bt_insert_nonempty|]. apply bt_insert_sorted. constructor.
    + intros v [_ Hv]. split; [apply bt_insert_nonempty|]. by apply bt_insert_sorted.
Qed.

Lemma aggregate_ok (w : world) : events_ok (aggregate w).
Proof.
  unfold aggregate.
  assert (H0 : forall ev : events_map, events_ok ev ->
            events_ok (fold_left (fun ev a => merge_map (map_at w a) ev) (maps w) ev)).
  { induction (maps w) as [|a l IH]; intros ev Hev; simpl; [done|].
    apply IH. by apply merge_map_ok. }
  apply H0. split; constructor.
Qed.

Lemma sorted_idx_nodup (l : list (Z * Z)) : StronglySorted idx_lt l -> NoDup (map fst l).
Proof.
  induction l as [|[i c] l IH]; intros Hs; simpl; [constructor|].
  inversion Hs as [|? ? Hl Hall]; subst. constructor; [|by apply IH].
  intros Hin. apply list_elem_of_In, in_map_iff in Hin as [[j d] [Hj Hjl]]. simpl in Hj; subst.
  rewrite List.Forall_forall in Hall. specialize (Hall _ Hjl). unfold idx_lt in Hall; simpl in Hall. lia.
Qed.

Lemma sum_counts_fold (counts : list (Z * Z)) (a : Z) :
  fold_left (fun acc '(_, c) => u64_add acc c) counts (a mod u64_modulus)
  = (a + fold_right Z.add 0 (map snd counts)) mod u64_modulus.
Proof.
  revert a. induction counts as [|[i c] l IH]; intros a; simpl.
  - by rewrite Z.add_0_r.
  - unfold u64_add. rewrite Zplus_mod_idemp_l, IH. f_equal. lia.
Qed.

Lemma sum_counts_mod (counts : list (Z * Z)) :
  sum_counts counts = fold_right Z.add 0 (map snd counts) mod u64_modulus.
Proof.
  unfold sum_counts. pose proof (sum_counts_fold counts 0) as H.
  rewrite Zmod_0_l in H. by rewrite H.
Qed.

(** ** Contents of the thread-local maps *)


Lemma key_eqb_kc (k1 k2 : key) : key_eqb k1 k2 = true <-> kc k1 = kc k2.
Proof.
  destruct k1 as [[p1 s1] i1], k2 as [[p2 s2] i2]. unfold key_eqb, str_eqb, kc; simpl.
  rewrite andb_true_iff, String.eqb_eq, Z.eqb_eq. split; [intros [-> ->]; done|].
  intros H; by inversion H.
Qed.

Lemma key_eqb_kc_false (k1 k2 : key) : key_eqb k1 k2 = false <-> kc k1 <> kc k2.
Proof. rewrite <- key_eqb_kc. destruct (key_eqb k1 k2); split; done. Qed.


Lemma entry_incr_In (k : key) (m : hmap) (k' : key) (c' : Z) :
  keys_distinct m ->
  In (k', c') (entry_incr k m) ->
  (kc k' <> kc k /\ In (k', c') m)
  \/ (kc k' = kc k /\ exists c, In (k', c) m /\ c' = u64_add c 1)
  \/ (kc k' = kc k /\ c' = u64_add 0 1 /\ forall k'' c'', In (k'', c'') m -> kc k'' <> kc k).
Proof.
  unfold keys_distinct. induction m as [|[k0 v] m IH]; simpl; intros Hnd.
  - intros [H|[]]. inversion H; subst. right; right. done.
  - apply NoDup_cons in Hnd as [Hnot Hnd].
    destruct (key_eqb k k0) eqn:E.
    + apply key_eqb_kc in E. intros [H|H].
      * inversion H; subst. right; left. split; [done|]. exists v. auto.
      * left. split; [|by right]. intros Heq. apply Hnot.
        apply list_elem_of_In, in_map_iff. exists (k', c'). simpl. split; [congruence|done].
    + apply key_eqb_kc_false in E. intros [H|H].
      * inversion H; subst. left. split; [done|]. by left.
      * destruct (IH Hnd H) as [[? ?]|[[? [c [? ?]]]|[? [? Hno]]]].
        -- left. split; [done|]. by right.
        -- right; left. split; [done|]. exists c. split; [by right|done].
        -- right; right. split; [done|]. split; [done|].
           intros k'' c'' [Hh|Hh]; [inversion Hh; subst; congruence|]. eauto.
Qed.

Lemma entry_incr_keys (k : key) (m : hmap) :
  map (fun e => kc (fst e)) (entry_incr k m)
  = if existsb (fun e => key_eqb k (fst e)) m then map (fun e => kc (fst e)) m
    else map (fun e => kc (fst e)) m ++ [kc k].
Proof.
  induction m as [|[k0 v] m IH]; simpl; [done|].
  destruct (key_eqb k k0); simpl; [done|]. rewrite IH.
  by destruct (existsb (fun e => key_eqb k (fst e)) m).
Qed.

Lemma existsb_key_false (k : key) (m : hmap) :
  existsb (fun e => key_eqb k (fst e)) m = false ->
  kc k ∉ map (fun e => kc (fst e)) m.
Proof.
  intros H Hin. apply list_elem_of_In, in_map_iff in Hin as [[k' c] [Hk Hin]].
  simpl in Hk. assert (existsb (fun e => key_eqb k (fst e)) m = true) as Ht; [|congruence].
  apply existsb_exists. exists (k', c). split; [done|]. simpl. by apply key_eqb_kc.
Qed.

Lemma entry_incr_distinct (k : key) (m : hmap) :
  keys_distinct m -> keys_distinct (entry_incr k m).
Proof.
  unfold keys_distinct. intros Hnd. rewrite entry_incr_keys.
  destruct (existsb (fun e => key_eqb k (fst e)) m) eqn:E; [done|].
  apply NoDup_app. split; [done|]. split; [|apply NoDup_singleton].
  intros x Hx Hy. apply list_elem_of_singleton in Hy; subst.
  by apply (existsb_key_false k m E).
Qed.

Lemma entry_incr_covers (k : key) (m : hmap) (q : string * Z) :
  ((exists k' c', In (k', c') m /\ kc k' = q) \/ q = kc k) ->
  exists k' c', In (k', c') (entry_incr k m) /\ kc k' = q.
Proof.
  induction m as [|[k0 v] m IH]; simpl.
  - intros [(? & ? & [] & _)| ->]. exists k, (u64_add 0 1). auto.
  - intros Hq. destruct (key_eqb k k0) eqn:E.
    + destruct Hq as [(k' & c' & [Hh|Hh] & Hk)| ->].
      * inversion Hh; subst. exists k', (u64_add c' 1). simpl; auto.
      * exists k', c'. simpl; auto.
      * apply key_eqb_kc in E. exists k0, (u64_add v 1). simpl; auto.
    + destruct Hq as [(k' & c' & [Hh|Hh] & Hk)| ->].
      * inversion Hh; subst. exists k', c'. simpl; auto.
      * destruct (IH (or_introl (ex_intro _ k' (ex_intro _ c' (conj Hh Hk)))))
          as (k'' & c'' & ? & ?). exists k'', c''. simpl; auto.
      * destruct (IH (or_intror eq_refl)) as (k'' & c'' & ? & ?). exists k'', c''. simpl; auto.
Qed.

Lemma hmap_get_Some (k : key) (m : hmap) (c : Z) :
  hmap_get k m = Some c -> exists k', In (k', c) m /\ kc k' = kc k.
Proof.
  induction m as [|[k0 v] m IH]; simpl; [done|].
  destruct (key_eqb k k0) eqn:E.
  - intros H; inversion H; subst. apply key_eqb_kc in E. exists k0. auto.
  - intros H. destruct (IH H) as (k' & ? & ?). exists k'. auto.
Qed.

Lemma hmap_get_None (k : key) (m : hmap) :
  hmap_get k m = None -> forall k' c, In (k', c) m -> kc k' <> kc k.
Proof.
  induction m as [|[k0 v] m IH]; simpl; [done|].
  destruct (key_eqb k k0) eqn:E; [done|]. apply key_eqb_kc_false in E.
  intros H k' c [Hh|Hh]; [inversion Hh; subst; congruence|]. eauto.
Qed.

Lemma hmap_get_entry_incr_same (k : key) (m : hmap) :
  count_in (entry_incr k m) k = u64_add (count_in m k) 1.
Proof.
  unfold count_in. induction m as [|[k0 v] m IH]; simpl.
  - assert (key_eqb k k = true) as -> by (by apply key_eqb_kc). done.
  - destruct (key_eqb k k0) eqn:E; simpl; rewrite E; [done|]. apply IH.
Qed.

Lemma hmap_get_entry_incr_other (k k' : key) (m : hmap) :
  key_eqb k' k = false -> hmap_get k' (entry_incr k m) = hmap_get k' m.
Proof.
  intros Hne. apply key_eqb_kc_false in Hne.
  induction m as [|[k0 v] m IH]; simpl.
  - destruct (key_eqb k' k) eqn:E; [|done]. apply key_eqb_kc in E. congruence.
  - destruct (key_eqb k k0) eqn:E; simpl.
    + destruct (key_eqb k' k0) eqn:E'; [|done].
      apply key_eqb_kc in E, E'. congruence.
    + by rewrite IH.
Qed.

(** ** Reachable states *)

Lemma cnt_app (t : nat) (q : string * Z) (l1 l2 : list call) :
  cnt t q (l1 ++ l2) = (cnt t q l1 + cnt t q l2)%nat.
Proof. induction l1 as [|[[t' n] i] l1 IH]; simpl; [done|]. rewrite IH. lia. Qed.

Lemma cnt_snoc (t t0 : nat) (n : rstr) (i : Z) (q : string * Z) (calls : list call) :
  cnt t q (calls ++ [(t0, n, i)])
  = (cnt t q calls + if bool_decide (t0 = t /\ kc (n, i) = q) then 1 else 0)%nat.
Proof. rewrite cnt_app. simpl. unfold kc. simpl. lia. Qed.


Lemma rep_nil (t : nat) (calls : list call) :
  (forall q, cnt t q calls = 0%nat) -> rep t calls [].
Proof.
  intros H0. split; [constructor|]. split; [intros ? ? []|].
  intros q Hq. rewrite H0 in Hq. lia.
Qed.

Lemma rep_other (t t0 : nat) (n : rstr) (i : Z) (calls : list call) (m : hmap) :
  t0 <> t -> rep t calls m -> rep t (calls ++ [(t0, n, i)]) m.
Proof.
  intros Hne. assert (Hc : forall q, cnt t q (calls ++ [(t0, n, i)]) = cnt t q calls).
  { intros q. rewrite cnt_snoc. rewrite bool_decide_eq_false_2; [lia|]. tauto. }
  unfold rep. setoid_rewrite Hc. done.
Qed.

Lemma rep_step (t : nat) (n : rstr) (i : Z) (calls : list call) (m : hmap) :
  rep t calls m -> rep t (calls ++ [(t, n, i)]) (entry_incr (n, i) m).
Proof.
  intros (Hnd & Hval & Hcov).
  assert (Hc : forall q, cnt t q (calls ++ [(t, n, i)])
                         = (cnt t q calls + if bool_decide (kc (n, i) = q) then 1 else 0)%nat).
  { intros q. rewrite cnt_snoc. by repeat case_bool_decide; try tauto. }
  split; [by apply entry_incr_distinct|]. split.
  - intros k' c' Hin. rewrite Hc.
    destruct (entry_incr_In _ _ _ _ Hnd Hin) as [[Hne Hm]|[[Heq [c [Hm ->]]]|[Heq [-> Hno]]]].
    + rewrite bool_decide_eq_false_2 by congruence. rewrite Nat.add_0_r. by apply Hval.
    + rewrite bool_decide_eq_true_2 by congruence.
      destruct (Hval _ _ Hm) as [-> _]. rewrite Heq. unfold u64_add.
      rewrite Zplus_mod_idemp_l, Nat2Z.inj_add. split; [done|lia].
    + rewrite bool_decide_eq_true_2 by congruence. rewrite Heq.
      assert (cnt t (kc (n, i)) calls = 0%nat) as ->.
      { destruct (cnt t (kc (n, i)) calls) eqn:E; [done|].
        destruct (Hcov (kc (n, i))) as (k'' & c'' & Hin'' & Hk''); [lia|].
        exfalso. by apply (Hno _ _ Hin''). }
      done.
  - intros q Hq. rewrite Hc in Hq. apply entry_incr_covers.
    case_bool_decide as Hb; [by right|]. left. apply Hcov. lia.
Qed.

Lemma inv_init : inv [] init_world.
Proof.
  split.
  - unfold init_world. split; [done|]. cbn.
    split; [intros t a H; by rewrite lookup_empty in H|].
    split; [intros t1 t2 a H; by rewrite lookup_empty in H|].
    intros a Ha. lia.
  - intros t. unfold init_world. cbn. rewrite lookup_empty. done.
Qed.

Lemma inv_event (calls : list call) (w : world) (t : nat) (n : rstr) (i : Z) :
  inv calls w -> inv (calls ++ [(t, n, i)]) (event t n i w).
Proof.
  intros [(Hmaps & Hbound & Hinj & Hown) Hthr].
  unfold event, with_thread_counts.
  destruct (thread_counts w !! t) as [a|] eqn:Ht.
  - pose proof (Hthr t) as Hta. rewrite Ht in Hta. destruct Hta as (m & Hm & Hrep).
    cbn. rewrite Hm. split.
    + unfold wf. cbn. rewrite length_insert. split_and!; done.
    + intros t'. cbn. destruct (thread_counts w !! t') as [b|] eqn:Ht'.
      * destruct (decide (t' = t)) as [->|Hne].
        -- rewrite Ht in Ht'. inversion Ht'; subst b. exists (entry_incr (n, i) m).
           split; [apply list_lookup_insert_eq; by apply (Hbound t)|]. by apply rep_step.
        -- pose proof (Hthr t') as Htb. rewrite Ht' in Htb. destruct Htb as (m' & Hm' & Hrep').
           exists m'. split.
           ++ rewrite list_lookup_insert_ne; [done|]. intros <-. apply Hne. by apply (Hinj t' t a).
           ++ apply rep_other; [congruence|done].
      * pose proof (Hthr t') as H0. rewrite Ht' in H0. intros q.
        rewrite cnt_snoc, H0. rewrite bool_decide_eq_false_2; [done|]. intros [-> _]. congruence.
  - pose proof (Hthr t) as H0. rewrite Ht in H0.
    unfold create_local_map. cbn.
    rewrite list_lookup_middle by done.
    set (a := length (heap w)).
    split; [unfold wf; split; [|split; [|split]]|]; cbn; rewrite ?length_insert, ?length_app; cbn.
    + rewrite Hmaps, seq_app. done.
    + intros t' b H. destruct (decide (t' = t)) as [->|Hne].
      * rewrite lookup_insert_eq in H. inversion H; subst. lia.
      * rewrite lookup_insert_ne in H by congruence. apply Hbound in H. unfold a. lia.
    + intros t1 t2 b H1 H2.
      destruct (decide (t1 = t)) as [->|Hne1], (decide (t2 = t)) as [->|Hne2]; [done| | |].
      * rewrite lookup_insert_eq in H1. rewrite lookup_insert_ne in H2 by congruence.
        inversion H1; subst. apply Hbound in H2. unfold a in H2. lia.
      * rewrite lookup_insert_eq in H2. rewrite lookup_insert_ne in H1 by congruence.
        inversion H2; subst. apply Hbound in H1. unfold a in H1. lia.
      * rewrite lookup_insert_ne in H1, H2 by congruence. by apply (Hinj t1 t2 b).
    + intros b Hb. destruct (decide (b = a)) as [->|Hne].
      * exists t. apply lookup_insert_eq.
      * destruct (Hown b) as [t' Ht']; [unfold a in Hne; lia|].
        exists t'. rewrite lookup_insert_ne; [done|]. congruence.
    + intros t'. destruct (decide (t' = t)) as [->|Hne].
      * rewrite lookup_insert_eq. exists (entry_incr (n, i) []). split.
        -- apply list_lookup_insert_eq. rewrite length_app. simpl. unfold a. lia.
        -- by apply rep_step, rep_nil.
      * rewrite lookup_insert_ne by congruence.
        destruct (thread_counts w !! t') as [b|] eqn:Ht'.
        -- pose proof (Hthr t') as Htb. rewrite Ht' in Htb. destruct Htb as (m' & Hm' & Hrep').
           pose proof (Hbound _ _ Ht') as Hb. exists m'. split.
           ++ rewrite list_lookup_insert_ne by (unfold a; lia).
              rewrite lookup_app_l by done. done.
           ++ apply rep_other; [congruence|done].
        -- pose proof (Hthr t') as H1. rewrite Ht' in H1. intros q.
           rewrite cnt_snoc, H1. rewrite bool_decide_eq_false_2; [done|]. intros [-> _]. congruence.
Qed.

Lemma inv_run (calls : list call) : inv calls (run_events calls init_world).
Proof.
  induction calls as [|[[t n] i] calls IH] using rev_ind; [apply inv_init|].
  unfold run_events. rewrite fold_left_app. simpl. by apply inv_event.
Qed.

Lemma run_events_snoc (calls : list call) (c : call) (w : world) :
  run_events (calls ++ [c]) w = (let '(t, n, i) := c in event t n i) (run_events calls w).
Proof. unfold run_events. rewrite fold_left_app. by destruct c as [[t n] i]. Qed.

Lemma cnt_le_length (t : nat) (q : string * Z) (calls : list call) :
  (cnt t q calls <= length calls)%nat.
Proof. induction calls as [|[[t' n] i] calls IH]; simpl; [lia|]. case_bool_decide; lia. Qed.

Lemma count_of_run (calls : list call) (t : nat) (k : key) :
  count_of (run_events calls init_world) t k = Z.of_nat (cnt t (kc k) calls) mod u64_modulus.
Proof.
  destruct (inv_run calls) as [_ Hthr]. specialize (Hthr t).
  unfold count_of, thread_map. destruct (thread_counts _ !! t) as [a|].
  - destruct Hthr as (m & -> & (_ & Hval & Hcov)). simpl. unfold count_in.
    destruct (hmap_get k m) as [c|] eqn:E; simpl.
    + destruct (hmap_get_Some _ _ _ E) as (k' & Hin & Hk). rewrite <- Hk. by apply (Hval k').
    + destruct (cnt t (kc k) calls) eqn:Ec; [done|].
      destruct (Hcov (kc k)) as (k' & c & Hin & Hk); [lia|].
      exfalso. by apply (hmap_get_None _ _ E k' c).
  - by rewrite Hthr.
Qed.

Lemma cnt_repeat (t : nat) (n : rstr) (i : Z) (k : nat) :
  cnt t (kc (n, i)) (repeat (t, n, i) k) = k.
Proof.
  induction k as [|k IH]; simpl; [done|]. rewrite IH.
  rewrite bool_decide_eq_true_2; [lia|done].
Qed.

Lemma filter_single (m : hmap) (kq k0 : key) (c0 : Z) :
  keys_distinct m -> In (k0, c0) m -> kc k0 = kc kq ->
  List.filter (fun e => key_eqb (fst e) kq) m = [(k0, c0)].
Proof.
  unfold keys_distinct. induction m as [|[k1 c1] m IH]; simpl; [done|].
  intros Hnd Hin Hk. apply NoDup_cons in Hnd as [Hnot Hnd].
  destruct Hin as [Hh|Hin].
  - inversion Hh; subst. assert (key_eqb k0 kq = true) as -> by (by apply key_eqb_kc).
    f_equal. clear IH. induction m as [|[k2 c2] m IHm]; simpl; [done|].
    destruct (key_eqb k2 kq) eqn:E.
    + exfalso. apply Hnot. apply key_eqb_kc in E. simpl. rewrite elem_of_cons. left. simpl. congruence.
    + apply IHm; [|by apply NoDup_cons in Hnd as [_ ?]].
      intros Hx. apply Hnot. simpl. by apply elem_of_cons; right.
  - destruct (key_eqb k1 kq) eqn:E.
    + exfalso. apply Hnot. apply key_eqb_kc in E.
      apply list_elem_of_In, in_map_iff. exists (k0, c0). simpl. split; [congruence|done].
    + by apply IH.
Qed.


Lemma bt_insert_In (i c i' c' : Z) (m : list (Z * Z)) :
  In (i', c') (bt_insert i c m) -> (i', c') = (i, c) \/ In (i', c') m.
Proof.
  induction m as [|[j d] r IH]; simpl; [intros [H|[]]; auto|].
  destruct (Z.compare_spec i j) as [->|_|_]; simpl.
  - intros [H|H]; [by left|]. auto.
  - intros [H|[H|H]]; auto.
  - intros [H|H]; [auto|]. destruct (IH H); auto.
Qed.

Lemma str_cmp_eq_bytes (a b : rstr) : str_cmp a b = Eq -> str_bytes a = str_bytes b.
Proof. apply String.compare_eq_iff. Qed.

Lemma bt_entry_update_src (w : world) (nm : rstr) (index count : Z) (ev : events_map) :
  src w (str_bytes nm) index count ->
  Forall (ev_src w) ev -> Forall (ev_src w) (bt_entry_update nm (bt_insert index count) ev).
Proof.
  intros Hsrc. induction ev as [|[n' v] r IH]; intros Hall; simpl.
  - constructor; [|done]. intros i c Hin. simpl in Hin.
    destruct Hin as [Hh|[]]. inversion Hh; subst. done.
  - inversion Hall as [|? ? Hv Hr]; subst.
    destruct (str_cmp nm n') eqn:E; constructor; auto.
    + intros i c Hin. simpl in *. destruct (bt_insert_In _ _ _ _ _ Hin) as [Hh|Hh].
      * inversion Hh; subst. apply str_cmp_eq_bytes in E. by rewrite <- E.
      * by apply Hv.
    + intros i c Hin. destruct Hin as [Hh|[]]. inversion Hh; subst. done.
Qed.

Lemma aggregate_src (w : world) : Forall (ev_src w) (aggregate w).
Proof.
  unfold aggregate.
  assert (H : forall (l : list nat) ev, (forall a, In a l -> In a (maps w)) ->
            Forall (ev_src w) ev ->
            Forall (ev_src w) (fold_left (fun ev a => merge_map (map_at w a) ev) l ev)).
  { induction l as [|a l IH]; intros ev Hl Hev; simpl; [done|].
    apply IH; [intros; apply Hl; by right|].
    unfold merge_map.
    assert (Hm : forall l', (forall e, In e l' -> In e (map_at w a)) -> forall ev',
              Forall (ev_src w) ev' ->
              Forall (ev_src w) (fold_left (fun ev '((name, index), count) =>
                                  bt_entry_update name (bt_insert index count) ev) l' ev')).
    { induction l' as [|[[name index] count] l' IHl]; intros Hsub ev' Hev'; simpl; [done|].
      apply IHl; [intros; apply Hsub; by right|].
      apply bt_entry_update_src; [|done].
      exists a, (name, index). split; [apply Hl; by left|]. split; [apply Hsub; by left|done]. }
    by apply Hm. }
  apply H; [done|constructor].
Qed.


Lemma cnt_le_cnt_all (t : nat) (q : string * Z) (calls : list call) :
  (cnt t q calls <= cnt_all q calls)%nat.
Proof. induction calls as [|[[t' n] i] calls IH]; simpl; [lia|]. repeat case_bool_decide; tauto || lia. Qed.


Lemma sum_cnt_miss (s : string) (is : list Z) (c0 : call) (r : list call) :
  (forall j, In j is -> (str_bytes (snd (fst c0)), snd c0) <> (s, j)) ->
  sum_cnt s is (c0 :: r) = sum_cnt s is r.
Proof.
  destruct c0 as [[t0 n0] i0]; simpl.
  induction is as [|j is IH]; intros Hmiss; simpl; [done|].
  rewrite bool_decide_eq_false_2 by (apply Hmiss; by left).
  rewrite IH; [done|]. intros j' Hj'. apply Hmiss. by right.
Qed.

Lemma sum_cnt_cons (s : string) (is : list Z) (c0 : call) (r : list call) :
  NoDup is -> (sum_cnt s is (c0 :: r) <= 1 + sum_cnt s is r)%nat.
Proof.
  induction is as [|j is IH]; intros Hnd; simpl; [lia|].
  apply NoDup_cons in Hnd as [Hnot Hnd].
  destruct c0 as [[t0 n0] i0]. simpl.
  case_bool_decide as Hb.
  - rewrite (sum_cnt_miss s is (t0, n0, i0) r); [lia|].
    simpl. intros j' Hj' Heq. apply Hnot. rewrite Hb in Heq. inversion Heq; subst.
    by apply list_elem_of_In.
  - specialize (IH Hnd). simpl in IH. lia.
Qed.

Lemma sum_cnt_le_length (s : string) (is : list Z) (calls : list call) :
  NoDup is -> (sum_cnt s is calls <= length calls)%nat.
Proof.
  intros Hnd. induction calls as [|c0 r IH]; simpl.
  - clear Hnd. induction is; simpl; lia.
  - pose proof (sum_cnt_cons s is c0 r Hnd). lia.
Qed.

Lemma src_bounds (calls : list call) (s : string) (i c : Z) :
  Z.of_nat (length calls) < u64_modulus ->
  src (run_events calls init_world) s i c ->
  1 <= c /\ c <= Z.of_nat (cnt_all (s, i) calls).
Proof.
  intros Hlen (a & k & Ha & Hin & Hk).
  destruct (inv_run calls) as [(Hmaps & Hbound & Hinj & Hown) Hthr].
  rewrite Hmaps in Ha. apply in_seq in Ha. destruct (Hown a) as [t Ht]; [lia|].
  specialize (Hthr t). rewrite Ht in Hthr. destruct Hthr as (m & Hm & (_ & Hval & _)).
  unfold map_at in Hin. rewrite Hm in Hin.
  destruct (Hval _ _ Hin) as [-> Hpos]. rewrite Hk in *.
  pose proof (cnt_le_length t (s, i) calls). pose proof (cnt_le_cnt_all t (s, i) calls).
  rewrite Z.mod_small by lia. lia.
Qed.

Lemma sum_le_sum_cnt (s : string) (calls : list call) (counts : list (Z * Z)) :
  (forall i c, In (i, c) counts -> c <= Z.of_nat (cnt_all (s, i) calls)) ->
  fold_right Z.add 0 (map snd counts) <= Z.of_nat (sum_cnt s (map fst counts) calls).
Proof.
  induction counts as [|[i c] r IH]; intros Hb; simpl; [lia|].
  specialize (Hb i c (or_introl eq_refl)) as Hc.
  assert (fold_right Z.add 0 (map snd r) <= Z.of_nat (sum_cnt s (map fst r) calls))
    by (apply IH; intros; apply Hb; by right).
  lia.
Qed.

Lemma sum_ge_1 (counts : list (Z * Z)) :
  counts <> [] -> (forall i c, In (i, c) counts -> 1 <= c) ->
  1 <= fold_right Z.add 0 (map snd counts).
Proof.
  assert (Hnn : forall l : list (Z * Z), (forall i c, In (i, c) l -> 1 <= c) ->
            0 <= fold_right Z.add 0 (map snd l)).
  { induction l as [|[i c] r IH]; intros Hb; simpl; [lia|].
    specialize (Hb i c (or_introl eq_refl)) as Hc.
    assert (0 <= fold_right Z.add 0 (map snd r)) by (apply IH; intros i' c' Hi'; apply (Hb i' c'); by right).
    lia. }
  destruct counts as [|[i c] r]; [done|]. intros _ Hb. simpl.
  specialize (Hb i c (or_introl eq_refl)) as Hc.
  assert (0 <= fold_right Z.add 0 (map snd r)) by (apply Hnn; intros i' c' Hi'; apply (Hb i' c'); by right).
  lia.
Qed.


(** ** The merged view and the registry *)

Lemma string_compare_refl (s : string) : String.compare s s = Eq.
Proof. induction s as [|a s IH]; simpl; [done|]. by rewrite ascii_compare_refl. Qed.

Lemma find_bt_insert_same (i c : Z) (m : list (Z * Z)) :
  List.find (fun ic => Z.eqb (fst ic) i) (bt_insert i c m) = Some (i, c).
Proof.
  induction m as [|[j d] r IH]; simpl; [by rewrite Z.eqb_refl|].
  destruct (Z.compare_spec i j) as [->|Hlt|Hgt]; simpl; rewrite ?Z.eqb_refl; [done|done|].
  assert ((j =? i) = false) as -> by (apply Z.eqb_neq; lia). done.
Qed.

Lemma find_bt_insert_other (i c i' : Z) (m : list (Z * Z)) :
  i <> i' ->
  List.find (fun ic => Z.eqb (fst ic) i') (bt_insert i c m)
  = List.find (fun ic => Z.eqb (fst ic) i') m.
Proof.
  intros Hne. assert ((i =? i') = false) as Hf by (by apply Z.eqb_neq).
  induction m as [|[j d] r IH]; simpl; [by rewrite Hf|].
  destruct (Z.compare_spec i j) as [->|Hlt|Hgt]; simpl.
  - by rewrite Hf.
  - by rewrite Hf.
  - destruct (j =? i'); [done|]. apply IH.
Qed.

Lemma str_cmp_lt_eqb (a b : rstr) : str_cmp a b = Lt -> str_eqb a b = false.
Proof.
  unfold str_cmp, str_eqb. intros H. apply String.eqb_neq. intros He.
  rewrite He, string_compare_refl in H. done.
Qed.

Lemma str_eqb_sym (a b : rstr) : str_eqb a b = str_eqb b a.
Proof. unfold str_eqb. apply String.eqb_sym. Qed.

Lemma str_eqb_cmp_eq (a b c : rstr) :
  str_cmp a b = Eq -> str_eqb b c = str_eqb a c.
Proof. intros H. apply str_cmp_eq_bytes in H. unfold str_eqb. by rewrite H. Qed.

Lemma events_get_absent (nm : rstr) (i : Z) (ev : events_map) :
  Forall (fun e => str_eqb (fst e) nm = false) ev -> events_get nm i ev = None.
Proof.
  unfold events_get. induction ev as [|[n' v] r IH]; intros Hall; simpl; [done|].
  inversion Hall as [|? ? Hh Hr]; subst. simpl in Hh. rewrite Hh. by apply IH.
Qed.

Lemma events_get_update (nm nm' : rstr) (i c i' : Z) (ev : events_map) :
  StronglySorted name_lt ev ->
  events_get nm' i' (bt_entry_update nm (bt_insert i c) ev)
  = if str_eqb nm nm' && Z.eqb i i' then Some c else events_get nm' i' ev.
Proof.
  unfold events_get.
  induction ev as [|[n' v] r IH]; intros Hs; simpl.
  - destruct (str_eqb nm nm') eqn:E; simpl; [|done].
    by destruct (Z.eqb_spec i i').
  - inversion Hs as [|? ? Hr Hall]; subst.
    destruct (str_cmp nm n') eqn:E; simpl.
    + rewrite (str_eqb_cmp_eq nm n' nm') by exact E.
      destruct (str_eqb nm nm') eqn:Enm; simpl.
      * destruct (Z.eqb_spec i i') as [->|Hne]; simpl; [by rewrite find_bt_insert_same|].
        by rewrite find_bt_insert_other.
      * done.
    + destruct (str_eqb nm nm') eqn:Enm; simpl.
      * assert (Habs : Forall (fun e => str_eqb (fst e) nm' = false) ((n', v) :: r)).
        { assert (Hb : forall e, str_eqb e nm' = str_eqb nm e)
            by (intros e; unfold str_eqb in *; apply String.eqb_eq in Enm;
                rewrite <- Enm; apply String.eqb_sym).
          constructor.
          - simpl. rewrite Hb. by apply str_cmp_lt_eqb.
          - eapply Forall_impl; [exact Hall|]. intros [n'' v''] Hlt. unfold name_lt in Hlt; simpl in *.
            rewrite Hb. apply str_cmp_lt_eqb.
            eapply string_compare_lt_trans; [exact E|exact Hlt]. }
        pose proof (events_get_absent nm' i' _ Habs) as Hn. unfold events_get in Hn.
        destruct (Z.eqb_spec i i'); simpl; try done; simpl in Hn; symmetry; exact Hn.
      * done.
    + destruct (str_eqb n' nm') eqn:En'.
      * assert (str_eqb nm nm' = false) as ->; [|done].
        unfold str_eqb, str_cmp in *. apply String.eqb_eq in En'. apply String.eqb_neq.
        intros Heq. rewrite Heq, <- En', string_compare_refl in E. done.
      * by apply IH.
Qed.

Lemma events_get_merge (nm : rstr) (i : Z) (m : hmap) (ev : events_map) :
  keys_distinct m -> Sorted name_lt ev ->
  events_get nm i (merge_map m ev)
  = match hmap_get (nm, i) m with Some c => Some c | None => events_get nm i ev end.
Proof.
  unfold merge_map, keys_distinct.
  revert ev; induction m as [|[[name index] count] m IH]; intros ev Hnd Hs; simpl; [done|].
  apply NoDup_cons in Hnd as [Hnot Hnd].
  rewrite IH; [|done|by apply bt_entry_update_sorted].
  rewrite events_get_update by (by apply Sorted_StronglySorted; [apply name_lt_trans|]).
  unfold key_eqb; simpl. rewrite (str_eqb_sym name nm), (Z.eqb_sym index i).
  destruct (str_eqb nm name && (i =? index)) eqn:E; [|done].
  destruct (hmap_get (nm, i) m) as [c'|] eqn:Eg; [|done].
  exfalso. apply Hnot. destruct (hmap_get_Some _ _ _ Eg) as (k' & Hin & Hk).
  apply list_elem_of_In, in_map_iff. exists (k', c'). split; [|done]. simpl. rewrite Hk.
  apply key_eqb_kc. unfold key_eqb. simpl. done.
Qed.

Lemma events_get_aggregate (w : world) (nm : rstr) (i : Z) :
  (forall a, In a (maps w) -> keys_distinct (map_at w a)) ->
  events_get nm i (aggregate w) = last_count w (nm, i).
Proof.
  intros Hd. unfold aggregate, last_count.
  assert (H : forall l ev acc, (forall a, In a l -> keys_distinct (map_at w a)) ->
            events_ok ev -> events_get nm i ev = acc ->
            events_get nm i (fold_left (fun ev a => merge_map (map_at w a) ev) l ev)
            = fold_left (fun acc a => match hmap_get (nm, i) (map_at w a) with
                                      | Some c => Some c | None => acc end) l acc).
  { induction l as [|a l IH]; intros ev acc Hl Hs Hacc; simpl; [done|].
    apply IH; [intros; apply Hl; by right| |].
    - by apply merge_map_ok.
    - rewrite events_get_merge; [|apply Hl; by left|apply Hs]. by rewrite Hacc. }
  apply H; [done|split; constructor|done].
Qed.

Lemma first_threads_snoc (calls : list call) (t : nat) (n : rstr) (i : Z) :
  first_threads (calls ++ [(t, n, i)])
  = if bool_decide (t ∈ first_threads calls) then first_threads calls
    else first_threads calls ++ [t].
Proof. unfold first_threads. by rewrite fold_left_app. Qed.

Lemma registry_run (calls : list call) :
  let w := run_events calls init_world in
  length (heap w) = length (first_threads calls)
  /\ forall t a, thread_counts w !! t = Some a <-> first_threads calls !! a = Some t.
Proof.
  induction calls as [|[[t n] i] calls IH] using rev_ind; intros w.
  - split; [done|]. intros t a. unfold w; cbn. rewrite lookup_empty. split; done.
  - destruct IH as [Hlen Hiff].
    destruct (inv_run calls) as [(Hmaps & Hbound & _ & _) _].
    unfold w. rewrite run_events_snoc, first_threads_snoc.
    set (w0 := run_events calls init_world) in *.
    set (ft := first_threads calls) in *.
    unfold event, with_thread_counts.
    destruct (thread_counts w0 !! t) as [a|] eqn:Ht.
    + assert (Hft : ft !! a = Some t) by (by apply Hiff).
      rewrite bool_decide_eq_true_2 by (by eapply list_elem_of_lookup_2).
      destruct (heap w0 !! a) as [m|] eqn:Hm.
      * cbn. rewrite length_insert. done.
      * done.
    + assert (Hnot : t ∉ ft).
      { intros Hin. apply list_elem_of_lookup_1 in Hin as [a Ha]. apply Hiff in Ha. congruence. }
      rewrite bool_decide_eq_false_2 by done.
      unfold create_local_map. cbn. rewrite list_lookup_middle by done. cbn.
      split; [rewrite length_insert, !length_app, Hlen; done|].
      intros t' b. rewrite lookup_app.
      destruct (decide (t' = t)) as [->|Hne].
      * rewrite lookup_insert_eq. split.
        -- intros Hb. inversion Hb; subst b. rewrite Hlen, lookup_ge_None_2 by lia.
           by rewrite Nat.sub_diag.
        -- destruct (ft !! b) as [t'|] eqn:Hb.
           ++ intros Heq. inversion Heq; subst t'. exfalso. apply Hnot.
              by eapply list_elem_of_lookup_2.
           ++ intros H1. apply lookup_ge_None_1 in Hb.
              destruct (b - length ft)%nat as [|k] eqn:Hk; [|done]. f_equal. lia.
      * rewrite lookup_insert_ne by congruence. rewrite Hiff.
        destruct (ft !! b) as [t''|] eqn:Hb; [done|].
        split; [done|]. intros H1. exfalso.
        destruct (b - length ft)%nat as [|k]; simpl in H1; [congruence|].
        by rewrite lookup_nil in H1.
Qed.

Lemma hmap_get_rep (t : nat) (calls : list call) (m : hmap) (k : key) :
  rep t calls m ->
  hmap_get k m = if (1 <=? cnt t (kc k) calls)%nat
                 then Some (Z.of_nat (cnt t (kc k) calls) mod u64_modulus) else None.
Proof.
  intros (_ & Hval & Hcov).
  destruct (hmap_get k m) as [c|] eqn:E.
  - destruct (hmap_get_Some _ _ _ E) as (k' & Hin & Hk).
    destruct (Hval _ _ Hin) as [-> Hpos]. rewrite Hk in *.
    apply Nat.leb_le in Hpos. by rewrite Hpos.
  - destruct (1 <=? cnt t (kc k) calls)%nat eqn:Hc; [|done].
    apply Nat.leb_le in Hc. destruct (Hcov _ Hc) as (k' & c & Hin & Hk).
    exfalso. by apply (hmap_get_None _ _ E k' c).
Qed.

Lemma fold_left_seq {A} (f g : A -> nat -> A) (ft : list nat) (k : nat) (acc : A) :
  (forall j t, ft !! j = Some t -> forall acc, f acc (k + j)%nat = g acc t) ->
  fold_left f (seq k (length ft)) acc = fold_left g ft acc.
Proof.
  revert k acc; induction ft as [|x ft IH]; intros k acc Hfg; simpl; [done|].
  rewrite <- (Hfg 0%nat x eq_refl), Nat.add_0_r. apply IH.
  intros j t Hj acc'. rewrite <- (Hfg (S j) t Hj). f_equal. lia.
Qed.

Lemma maps_run_distinct (calls : list call) (a : nat) :
  In a (maps (run_events calls init_world)) ->
  keys_distinct (map_at (run_events calls init_world) a).
Proof.
  intros Ha. destruct (inv_run calls) as [(Hmaps & Hbound & Hinj & Hown) Hthr].
  rewrite Hmaps in Ha. apply in_seq in Ha. destruct (Hown a) as [t Ht]; [lia|].
  specialize (Hthr t). rewrite Ht in Hthr. destruct Hthr as (m & Hm & (Hnd & _)).
  unfold map_at. by rewrite Hm.
Qed.

Lemma cnt_pos_first_threads (calls : list call) (t : nat) (q : string * Z) :
  (1 <= cnt t q calls)%nat -> t ∈ first_threads calls.
Proof.
  intros Hc. destruct (inv_run calls) as [_ Hthr]. specialize (Hthr t).
  destruct (registry_run calls) as [_ Hiff].
  destruct (thread_counts (run_events calls init_world) !! t) as [a|] eqn:Ht.
  - apply Hiff in Ht. by eapply list_elem_of_lookup_2.
  - rewrite Hthr in Hc. lia.
Qed.

Lemma cnt_other_thread (calls : list call) (t0 t : nat) (q : string * Z) :
  (forall t' n j, In (t', n, j) calls -> (str_bytes n, j) = q -> t' = t0) ->
  t <> t0 -> cnt t q calls = 0%nat.
Proof.
  induction calls as [|[[t' n] j] calls IH]; intros Hone Hne; simpl; [done|].
  rewrite IH; [|intros t1 n1 j1 H1 H2; apply (Hone t1 n1 j1); [by right|done]|done].
  case_bool_decide as Hb; [|done]. destruct Hb as [-> Hq].
  exfalso. apply Hne. apply (Hone t n j); [by left|done].
Qed.

Lemma cnt_all_one_thread (calls : list call) (t0 : nat) (q : string * Z) :
  (forall t' n j, In (t', n, j) calls -> (str_bytes n, j) = q -> t' = t0) ->
  cnt_all q calls = cnt t0 q calls.
Proof.
  induction calls as [|[[t' n] j] calls IH]; intros Hone; simpl; [done|].
  rewrite IH by (intros t1 n1 j1 H1 H2; apply (Hone t1 n1 j1); [by right|done]).
  repeat case_bool_decide; try tauto.
  exfalso. match goal with H : ¬ (_ /\ _) |- _ => apply H end. split; [|done].
  apply (Hone t' n j); [by left|done].
Qed.

Lemma fold_left_one {A} (g : A -> nat -> A) (t0 : nat) (v : A) (ft : list nat) (acc : A) :
  (forall acc t, g acc t = if bool_decide (t = t0) then v else acc) ->
  fold_left g ft acc = if bool_decide (t0 ∈ ft) then v else acc.
Proof.
  intros Hg. revert acc; induction ft as [|x ft IH]; intros acc; simpl.
  - done.
  - rewrite IH, Hg. destruct (decide (t0 ∈ ft)) as [H1|H1].
    + rewrite !bool_decide_eq_true_2; [done|by apply elem_of_cons; right|done].
    + rewrite (bool_decide_eq_false_2 (t0 ∈ ft)) by done.
      destruct (decide (x = t0)) as [->|H2].
      * rewrite !bool_decide_eq_true_2; [done|by apply elem_of_cons; left|done].
      * rewrite !bool_decide_eq_false_2; [done| |done].
        intros H. apply elem_of_cons in H as [->|H]; done.
Qed.

Lemma fold_left_id {A B} (g : A -> B -> A) (l : list B) (acc : A) :
  (forall acc x, g acc x = acc) -> fold_left g l acc = acc.
Proof. intros Hg. revert acc; induction l as [|x l IH]; intros acc; simpl; [done|]. by rewrite Hg. Qed.

Lemma bt_entry_update_nonempty (nm : rstr) f (ev : events_map) : bt_entry_update nm f ev <> [].
Proof. destruct ev as [|[n' v] r]; simpl; [done|]. by destruct (str_cmp nm n'). Qed.

Lemma merge_map_nonempty (m : hmap) (ev : events_map) :
  m <> [] \/ ev <> [] -> merge_map m ev <> [].
Proof.
  unfold merge_map. revert ev; induction m as [|[[name index] count] m IH]; intros ev Hne; simpl.
  - by destruct Hne.
  - apply IH. right. apply bt_entry_update_nonempty.
Qed.

Lemma aggregate_nonempty (w : world) (a : nat) :
  In a (maps w) -> map_at w a <> [] -> aggregate w <> [].
Proof.
  unfold aggregate. intros Ha Hm.
  assert (H : forall l ev, (In a l \/ ev <> []) ->
            fold_left (fun ev a => merge_map (map_at w a) ev) l ev <> []).
  { induction l as [|b l IH]; intros ev Hl; simpl.
    - by destruct Hl as [[]|].
    - apply IH. destruct Hl as [[->|Hl]|Hl].
      + right. apply merge_map_nonempty. by left.
      + by left.
      + right. apply merge_map_nonempty. by right. }
  apply H. by left.
Qed.

Lemma events_get_run (calls : list call) (nm : rstr) (i : Z) :
  events_get nm i (aggregate (run_events calls init_world)) = last_thread_count calls (nm, i).
Proof.
  rewrite events_get_aggregate by apply maps_run_distinct.
  destruct (registry_run calls) as [_ Hiff].
  destruct (inv_run calls) as [(Hmaps & Hbound & _ & _) Hthr].
  destruct (registry_run calls) as [Hlen _].
  unfold last_count, last_thread_count. rewrite Hmaps, Hlen.
  apply fold_left_seq. intros j t Hj acc. simpl.
  apply Hiff in Hj. specialize (Hthr t). rewrite Hj in Hthr.
  destruct Hthr as (m & Hm & Hrep). unfold map_at. rewrite Hm.
  rewrite (hmap_get_rep t calls m (nm, i) Hrep).
  by destruct (cnt t (kc (nm, i)) calls).
Qed.

(** ** Integral [f64] values *)

Lemma digits2_pos_size (p : positive) : digits2_pos p = Pos.size p.
Proof. induction p as [p IH|p IH|]; simpl; rewrite ?IH; done. Qed.

Lemma pos_size_bounds (p : positive) :
  2 ^ (Zpos (Pos.size p) - 1) <= Zpos p < 2 ^ Zpos (Pos.size p).
Proof.
  pose proof (Pos.size_gt p) as H1. pose proof (Pos.size_le p) as H2.
  assert (H1' : Zpos p < Zpos (2 ^ Pos.size p)) by exact H1.
  assert (H2' : Zpos (2 ^ Pos.size p) <= Zpos p~0) by exact H2. clear H1 H2.
  rename H1' into H1. rename H2' into H2.
  rewrite Pos2Z.inj_pow in H1, H2. replace (Zpos p~0) with (2 * Zpos p) in H2 by lia.
  split; [|done].
  replace (Zpos (Pos.size p)) with (Zpos (Pos.size p) - 1 + 1) in H2 by lia.
  rewrite Z.pow_add_r, Z.pow_1_r in H2 by lia. lia.
Qed.

Lemma pos_size_unique (p : positive) (k : Z) :
  1 <= k -> 2 ^ (k - 1) <= Zpos p < 2 ^ k -> Zpos (Pos.size p) = k.
Proof.
  intros Hk [H1 H2]. pose proof (pos_size_bounds p) as [B1 B2].
  assert (Zpos (Pos.size p) - 1 < k).
  { apply (Z.pow_lt_mono_r_iff 2); [lia|lia|]. lia. }
  assert (k - 1 < Zpos (Pos.size p)).
  { apply (Z.pow_lt_mono_r_iff 2); [lia|lia|]. lia. }
  lia.
Qed.

Lemma iter_xO (p q : positive) : Zpos (Pos.iter xO p q) = Zpos p * 2 ^ Zpos q.
Proof.
  induction q as [|q IH] using Pos.peano_ind; [simpl; lia|].
  rewrite Pos.iter_succ, Pos2Z.inj_xO, IH, Pos2Z.inj_succ, Z.pow_succ_r by lia. lia.
Qed.

Lemma shr_exp (mrs : shr_record) (e n : Z) :
  e <= snd (shr mrs e n) /\ e + n <= snd (shr mrs e n).
Proof. unfold shr. destruct n; simpl; lia. Qed.

Lemma f64_of_Z_normal (p : positive) :
  Zpos p < 2 ^ 53 ->
  exists mz : positive,
    f64_of_Z (Zpos p) = S754_finite false mz (Zpos (Pos.size p) - 53)
    /\ Zpos mz = Zpos p * 2 ^ (53 - Zpos (Pos.size p))
    /\ digits2_pos mz = 53%positive.
Proof.
  intros Hp. pose proof (pos_size_bounds p) as [B1 B2].
  set (D := Zpos (Pos.size p)) in *.
  assert (HD : D <= 53).
  { assert (D - 1 < 53); [|lia]. apply (Z.pow_lt_mono_r_iff 2); lia. }
  assert (Hmz : forall mz, Zpos mz = Zpos p * 2 ^ (53 - D) -> digits2_pos mz = 53%positive).
  { intros mz Hm. rewrite digits2_pos_size. apply Pos2Z.inj. rewrite (pos_size_unique mz 53); [done|lia|].
    rewrite Hm. split.
    - replace (53 - 1) with ((D - 1) + (53 - D)) by lia. rewrite Z.pow_add_r by lia.
      apply Z.mul_le_mono_nonneg_r; [lia|done].
    - assert (E : 2 ^ 53 = 2 ^ D * 2 ^ (53 - D)) by (rewrite <- Z.pow_add_r by lia; f_equal; lia).
      rewrite E. apply Z.mul_lt_mono_pos_r; [lia|done]. }
  unfold f64_of_Z, binary_normalize, binary_round.
  rewrite digits2_pos_size. fold D.
  unfold fexp, emin, f64_prec, f64_emax.
  replace (Z.max (D + 0 - 53) (3 - 1024 - 53)) with (D - 53) by lia.
  unfold shl_align. replace (D - 53 - 0) with (D - 53) by lia.
  destruct (D - 53) as [|q|q] eqn:Eq.
  - exists p. assert (Hm : Zpos p = Zpos p * 2 ^ (53 - D)) by (replace (53 - D) with 0 by lia; lia).
    split; [|split; [done|by apply Hmz]].
    unfold binary_round_aux, shr_fexp. simpl Zdigits2.
    rewrite (Hmz p Hm). unfold fexp, emin.
    replace (Z.max (Zpos 53 + 0 - 53) (3 - 1024 - 53) - 0) with 0 by lia. simpl.
    rewrite (Hmz p Hm). simpl. done.
  - lia.
  - exists (Pos.iter xO p q).
    assert (Hm : Zpos (Pos.iter xO p q) = Zpos p * 2 ^ (53 - D)).
    { rewrite iter_xO. f_equal. f_equal. lia. }
    split; [|split; [done|by apply Hmz]].
    unfold binary_round_aux, shr_fexp. simpl Zdigits2.
    rewrite (Hmz _ Hm). unfold fexp, emin.
    replace (Z.max (Zpos 53 + Zneg q - 53) (3 - 1024 - 53) - Zneg q) with 0 by lia. simpl.
    rewrite (Hmz _ Hm). simpl.
    replace (Z.max (53 + Zneg q - 53) (3 - 1024 - 53) - Zneg q) with 0 by lia. simpl.
    reflexivity.
Qed.

Lemma f64_of_Z_big (p : positive) (s : bool) (m : positive) (e : Z) :
  2 ^ 53 <= Zpos p -> f64_of_Z (Zpos p) = S754_finite s m e -> 1 <= e.
Proof.
  intros Hp. pose proof (pos_size_bounds p) as [B1 B2].
  set (D := Zpos (Pos.size p)) in *.
  assert (HD : 54 <= D).
  { assert (53 < D); [|lia]. apply (Z.pow_lt_mono_r_iff 2); lia. }
  unfold f64_of_Z, binary_normalize, binary_round.
  rewrite digits2_pos_size. fold D.
  unfold fexp at 1, emin, f64_prec, f64_emax.
  replace (Z.max (D + 0 - 53) (3 - 1024 - 53)) with (D - 53) by lia.
  unfold shl_align. replace (D - 53 - 0) with (D - 53) by lia.
  destruct (D - 53) as [|q|q] eqn:Eq; [lia| |lia].
  unfold binary_round_aux, shr_fexp.
  destruct (shr (shr_record_of_loc (Zpos p) loc_Exact) 0
                (fexp 53 1024 (Zdigits2 (Zpos p) + 0) - 0)) as [mrs' e'] eqn:E1.
  assert (He' : 1 <= e').
  { pose proof (shr_exp (shr_record_of_loc (Zpos p) loc_Exact) 0
                  (fexp 53 1024 (Zdigits2 (Zpos p) + 0) - 0)) as [_ H].
    rewrite E1 in H. simpl in H. rewrite digits2_pos_size in H. fold D in H.
    unfold fexp, emin in H. lia. }
  destruct (shr (shr_record_of_loc (round_nearest_even (shr_m mrs') (loc_of_shr_record mrs')) loc_Exact) e'
                (fexp 53 1024 (Zdigits2 (round_nearest_even (shr_m mrs') (loc_of_shr_record mrs')) + e') - e'))
    as [mrs'' e''] eqn:E2.
  assert (He'' : e' <= e'').
  { match type of E2 with shr ?a ?b ?c = _ => pose proof (shr_exp a b c) as [H _] end.
    rewrite E2 in H. exact H. }
  destruct (shr_m mrs'') as [|m'|m']; try discriminate.
  destruct (e'' <=? 1024 - 53); [|discriminate].
  intros H. inversion H. lia.
Qed.

Lemma f64_of_Z_eqb_small (n d : Z) :
  0 < n < 2 ^ 53 -> 0 <= d -> SFeqb (f64_of_Z d) (f64_of_Z n) = true -> d = n.
Proof.
  intros Hn Hd. destruct n as [|pn|pn]; try lia.
  destruct (f64_of_Z_normal pn) as (mn & Hfn & Hmn & _); [lia|]. rewrite Hfn.
  destruct d as [|pd|pd]; [by vm_compute| |lia].
  destruct (Z_lt_le_dec (Zpos pd) (2 ^ 53)) as [Hsmall|Hbig].
  - destruct (f64_of_Z_normal pd) as (md & Hfd & Hmd & _); [lia|]. rewrite Hfd.
    unfold SFeqb, SFcompare.
    destruct (Z.compare_spec (Zpos (Pos.size pd) - 53) (Zpos (Pos.size pn) - 53)) as [He|He|He];
      [|done|done].
    destruct (Pos.compare_cont Eq md mn) eqn:Em; try done. intros _.
    change (Pos.compare md mn = Eq) in Em. apply Pos.compare_eq_iff in Em. subst md.
    assert (Hs : Zpos (Pos.size pd) = Zpos (Pos.size pn)) by lia.
    rewrite Hs in Hmd. rewrite Hmd in Hmn.
    apply Z.mul_cancel_r in Hmn; [done|]. pose proof (Z.pow_pos_nonneg 2 (53 - Zpos (Pos.size pn))). lia.
  - destruct (f64_of_Z (Zpos pd)) as [s|s| |s m e] eqn:Ef; intros Heq; unfold SFeqb, SFcompare in Heq;
      [destruct s; discriminate|destruct s; discriminate|discriminate|].
    pose proof (f64_of_Z_big pd s m e Hbig Ef) as He.
    pose proof (pos_size_bounds pn) as [B1 B2].
    assert (Zpos (Pos.size pn) <= 53).
    { assert (Zpos (Pos.size pn) - 1 < 53); [|lia]. apply (Z.pow_lt_mono_r_iff 2); lia. }
    destruct s; [discriminate|].
    destruct (Z.compare_spec e (Zpos (Pos.size pn) - 53)); try discriminate; lia.
Qed.

Lemma div_round_even_exact (a b : Z) : 0 < b -> div_round_even (a * b) b = a.
Proof.
  intros Hb. unfold div_round_even. rewrite Z.div_mul, Z.mod_mul by lia.
  simpl. destruct b; [lia|done|lia].
Qed.

Lemma round_pow10_nonneg (v : Z) (k : nat) : 0 <= v -> 0 <= round_pow10 v k.
Proof.
  intros Hv. unfold round_pow10, div_round_even.
  assert (0 < 10 ^ Z.of_nat k) by (apply Z.pow_pos_nonneg; lia).
  assert (0 <= v / 10 ^ Z.of_nat k) by (apply Z.div_pos; lia).
  destruct (Z.compare _ _); [destruct (Z.odd _)| |]; nia.
Qed.

Lemma shortest_int_exact (x : f64) (v : Z) (K : nat) :
  0 <= v ->
  (forall d, 0 <= d -> SFeqb (f64_of_Z d) x = true -> d = v) ->
  shortest_int x v K = v.
Proof.
  intros Hv Hinj. induction K as [|k IH]; simpl; [done|].
  destruct (SFeqb (f64_of_Z (round_pow10 v (S k))) x) eqn:E; [|done].
  apply Hinj; [by apply round_pow10_nonneg|done].
Qed.

Lemma fmt_f64_integral_small (n : Z) :
  0 <= n < 2 ^ 53 -> fmt_f64_integral (f64_of_Z n) = pretty n.
Proof.
  intros Hn. destruct n as [|p|p]; [reflexivity| |lia].
  destruct (f64_of_Z_normal p) as (mz & Hf & Hm & _); [lia|].
  pose proof (pos_size_bounds p) as [B1 B2].
  assert (HD : Zpos (Pos.size p) <= 53).
  { assert (Zpos (Pos.size p) - 1 < 53); [|lia]. apply (Z.pow_lt_mono_r_iff 2); lia. }
  assert (Hv : scaled_round (Zpos mz) (Zpos (Pos.size p) - 53) 0 = Zpos p).
  { unfold scaled_round. rewrite Z.pow_0_r, Z.mul_1_r, Hm.
    destruct (Z.leb_spec 0 (Zpos (Pos.size p) - 53)) as [H0|H0].
    - replace (53 - Zpos (Pos.size p)) with 0 by lia.
      replace (Zpos (Pos.size p) - 53) with 0 by lia. simpl. lia.
    - replace (- (Zpos (Pos.size p) - 53)) with (53 - Zpos (Pos.size p)) by lia.
      apply div_round_even_exact. apply Z.pow_pos_nonneg; lia. }
  pose proof Hf as Hf'. unfold fmt_f64_integral. rewrite Hf, Hv.
  rewrite shortest_int_exact; [done|lia|].
  intros d Hd Heq. rewrite <- Hf' in Heq. apply (f64_of_Z_eqb_small (Zpos p) d); [lia|done|done].
Qed.

Lemma div_eucl_pair (a b : Z) : Z.div_eucl a b = (a / b, a mod b).
Proof. unfold Z.div, Z.modulo. by destruct (Z.div_eucl a b). Qed.

Lemma f64_div_self (c : Z) :
  0 < c < 2 ^ 53 -> f64_div (f64_of_Z c) (f64_of_Z c) = S754_finite false 4503599627370496 (-52).
Proof.
  intros Hc. destruct c as [|p|p]; try lia.
  destruct (f64_of_Z_normal p) as (mz & Hf & _ & Hd); [lia|]. rewrite Hf.
  unfold f64_div, SFdiv, SFdiv_core_binary, f64_prec, f64_emax. cbn [Zdigits2]. rewrite Hd.
  set (e := Zpos (Pos.size p) - 53).
  replace (Zpos 53 + e - (Zpos 53 + e)) with 0 by lia. replace (e - e) with 0 by lia.
  cbn -[Z.div_eucl Z.shiftl new_location binary_round_aux].
  rewrite div_eucl_pair, Z.shiftl_mul_pow2 by lia.
  replace (Z.min (fexp 53 1024 0) 0) with (-53) by reflexivity.
  replace (0 - -53) with 53 by reflexivity. cbv beta iota.
  rewrite Z.mul_comm, Z.div_mul, Z.mod_mul by lia.
  assert (new_location (Zpos mz) 0 = loc_Exact) as ->
    by (unfold new_location; destruct (Z.even (Zpos mz)); reflexivity).
  vm_compute. reflexivity.
Qed.

(** ** Counts of the merged view *)

Lemma fold_last_Some {A} (b : A -> bool) (f : A -> Z) (l : list A) (acc : option Z) (c : Z) :
  fold_left (fun acc t => if b t then Some (f t) else acc) l acc = Some c ->
  acc = Some c \/ exists t, In t l /\ b t = true /\ c = f t.
Proof.
  revert acc; induction l as [|x l IH]; intros acc H; simpl in H; [by left|].
  destruct (IH _ H) as [Hacc|(t & Ht & Hb & ->)].
  - destruct (b x) eqn:Hbx.
    + right. exists x. inversion Hacc. split; [by left|done].
    + by left.
  - right. exists t. split; [by right|done].
Qed.

Lemma fold_last_None {A} (b : A -> bool) (f : A -> Z) (l : list A) (acc : option Z) :
  fold_left (fun acc t => if b t then Some (f t) else acc) l acc = None <->
  acc = None /\ forall t, In t l -> b t = false.
Proof.
  revert acc; induction l as [|x l IH]; intros acc; simpl.
  - split; [done|]. by intros [? _].
  - rewrite IH. destruct (b x) eqn:Hbx; split.
    + by intros [? _].
    + intros [_ H]. rewrite (H x) in Hbx; [done|by left].
    + intros [-> H]. split; [done|]. intros t [<-|Ht]; [done|by apply H].
    + intros [-> H]. split; [done|]. intros t Ht. apply H. by right.
Qed.

Lemma cnt_le_all (t : nat) (q : string * Z) (calls : list call) :
  (cnt t q calls <= cnt_all q calls)%nat.
Proof.
  induction calls as [|[[t' n] i] r IH]; simpl; [done|].
  repeat case_bool_decide; try tauto; lia.
Qed.

Lemma cnt_all_zero (q : string * Z) (calls : list call) :
  cnt_all q calls = 0%nat <-> forall t, cnt t q calls = 0%nat.
Proof.
  split.
  - intros H t. pose proof (cnt_le_all t q calls). lia.
  - induction calls as [|[[t' n] i] r IH]; intros H; simpl; [done|].
    rewrite IH; [|intros t; specialize (H t); simpl in H; lia].
    case_bool_decide as Hq; [|done].
    specialize (H t'). simpl in H. rewrite bool_decide_eq_true_2 in H by done. lia.
Qed.

Lemma cnt_all_le_length (q : string * Z) (calls : list call) :
  (cnt_all q calls <= length calls)%nat.
Proof.
  induction calls as [|[[t' n] i] r IH]; simpl; [done|].
  case_bool_decide; lia.
Qed.

Lemma last_thread_count_None (calls : list call) (k : key) :
  last_thread_count calls k = None <-> cnt_all (kc k) calls = 0%nat.
Proof.
  unfold last_thread_count. rewrite fold_last_None, cnt_all_zero. split.
  - intros [_ H] t. destruct (cnt t (kc k) calls) as [|n] eqn:Hc; [done|].
    exfalso. assert (Hin : t ∈ first_threads calls) by (apply (cnt_pos_first_threads _ _ (kc k)); lia).
    apply list_elem_of_In in Hin. specialize (H t Hin). rewrite Hc in H. done.
  - intros H. split; [done|]. intros t _. by rewrite H.
Qed.

Lemma last_thread_count_Some (calls : list call) (k : key) (c : Z) :
  last_thread_count calls k = Some c ->
  exists t, (1 <= cnt t (kc k) calls)%nat /\ c = Z.of_nat (cnt t (kc k) calls) mod u64_modulus.
Proof.
  unfold last_thread_count. intros H.
  apply (fold_last_Some (fun t => 1 <=? cnt t (kc k) calls)%nat
           (fun t => Z.of_nat (cnt t (kc k) calls) mod u64_modulus)) in H.
  destruct H as [H|(t & _ & Hb & ->)]; [done|]. exists t. split; [|done].
  by apply Nat.leb_le.
Qed.

Lemma run_repeat (t : nat) (nm : rstr) (k : nat) :
  run_events (repeat (t, nm, 0) (S k)) init_world
  = World [[((nm, 0), Z.of_nat (S k) mod u64_modulus)]] [0%nat] {[t := 0%nat]}.
Proof.
  induction k as [|k IH]; [reflexivity|].
  assert (Hr : forall (x : nat * rstr * Z) j, repeat x (S j) = repeat x j ++ [x]).
  { intros x j. induction j as [|j IHj]; [done|]. simpl. simpl in IHj. by rewrite IHj. }
  rewrite Hr, run_events_snoc, IH.
  unfold event, with_thread_counts. simpl. rewrite lookup_singleton_eq. simpl.
  unfold key_eqb. simpl. unfold str_eqb. rewrite String.eqb_refl. simpl.
  unfold u64_add. rewrite Zplus_mod_idemp_l. by rewrite (Nat2Z.inj_succ (S k)).
Qed.

Lemma run_events_app (l1 l2 : list call) (w : world) :
  run_events (l1 ++ l2) w = run_events l2 (run_events l1 w).
Proof. unfold run_events. by rewrite fold_left_app. Qed.

Lemma run_repeat_index1 (t : nat) (nm : rstr) (c : Z) (k : nat) :
  run_events (repeat (t, nm, 1) (S k)) (World [[((nm, 0), c)]] [0%nat] {[t := 0%nat]})
  = World [[((nm, 0), c); ((nm, 1), Z.of_nat (S k) mod u64_modulus)]] [0%nat] {[t := 0%nat]}.
Proof.
  induction k as [|k IH].
  - unfold run_events. simpl. unfold event, with_thread_counts. simpl.
    rewrite lookup_singleton_eq. simpl. unfold key_eqb, str_eqb. simpl.
    by rewrite andb_false_r.
  - assert (Hr : forall (x : nat * rstr * Z) j, repeat x (S j) = repeat x j ++ [x]).
    { intros x j. induction j as [|j IHj]; [done|]. simpl. simpl in IHj. by rewrite IHj. }
    rewrite Hr, run_events_snoc, IH.
    unfold event, with_thread_counts. simpl. rewrite lookup_singleton_eq. simpl.
    unfold key_eqb, str_eqb. simpl. rewrite String.eqb_refl, andb_false_r. simpl.
    unfold u64_add. rewrite Zplus_mod_idemp_l. by rewrite (Nat2Z.inj_succ (S k)).
Qed.

Lemma u64_incr_cases (c : Z) :
  0 <= c < u64_modulus -> u64_add c 1 = if c <? u64_modulus - 1 then c + 1 else 0.
Proof.
  intros Hc. unfold u64_add. destruct (Z.ltb_spec c (u64_modulus - 1)) as [Hlt|Hge].
  - apply Z.mod_small. lia.
  - replace (c + 1) with u64_modulus by lia. apply Z_mod_same_full.
Qed.

Lemma aggregate_sum_exact (calls : list call) (name : rstr) (counts : list (Z * Z)) :
  Z.of_nat (length calls) < u64_modulus ->
  In (name, counts) (aggregate (run_events calls init_world)) ->
  1 <= fold_right Z.add 0 (map snd counts)
  /\ sum_counts counts = fold_right Z.add 0 (map snd counts).
Proof.
  intros Hlen Hin. set (w := run_events calls init_world) in *.
  pose proof (aggregate_src w) as Hsrc. rewrite List.Forall_forall in Hsrc.
  specialize (Hsrc _ Hin). unfold ev_src in Hsrc; simpl in Hsrc.
  destruct (aggregate_ok w) as [_ Hok]. rewrite List.Forall_forall in Hok.
  destruct (Hok _ Hin) as [Hne Hs]; simpl in Hne, Hs.
  assert (Hnd : NoDup (map fst counts))
    by (apply sorted_idx_nodup, Sorted_StronglySorted; [apply idx_lt_trans|done]).
  assert (Hb : forall i c, In (i, c) counts ->
               1 <= c /\ c <= Z.of_nat (cnt_all (str_bytes name, i) calls))
    by (intros i c Hic; apply src_bounds; [done|by apply Hsrc]).
  assert (H1 : 1 <= fold_right Z.add 0 (map snd counts))
    by (apply sum_ge_1; [done|intros i c Hic; by apply (Hb i c)]).
  assert (H2 : fold_right Z.add 0 (map snd counts)
               <= Z.of_nat (sum_cnt (str_bytes name) (map fst counts) calls))
    by (apply sum_le_sum_cnt; intros i c Hic; by apply (Hb i c)).
  pose proof (sum_cnt_le_length (str_bytes name) (map fst counts) calls Hnd) as H3.
  split; [done|]. rewrite sum_counts_mod, Z.mod_small by lia. done.
Qed.

(** ** Claims *)

(** C1 (code_bug): two threads each record [("a", 0)] once; the report
    shows [a: 1], not the total [2]: the merge loop [insert]s each map's
    count, so the last registered map overwrites the others. *)
Theorem report_overwrites_across_threads :
  report (run_events [(0%nat, lit 1 "a", 0); (1%nat, lit 1 "a", 0)] init_world) = ["a: 1"].
Proof. vm_compute. reflexivity. Qed.

(** C2: for every name of the merged view, its inner map is non-empty with
    distinct indices, and the per-index lines follow the sum line exactly
    when there is more than one index or the only index is not [0]. *)
Theorem report_breakdown_rule (w : world) (name : rstr) (counts : list (Z * Z))
    (Hin : In (name, counts) (aggregate w)) :
  let sum := f64_of_Z (sum_counts counts) in
  report w = concat (map (fun '(name, counts) => report_block name counts) (aggregate w))
  /\ counts <> [] /\ NoDup (map fst counts)
  /\ ((exists c, counts = [(0, c)]) -> report_block name counts = [sum_line name sum])
  /\ ((1 < length counts)%nat \/ (exists i c, counts = [(i, c)] /\ i <> 0) ->
      report_block name counts = sum_line name sum :: map (pct_line name sum) counts).
Proof.
  intros sum. destruct (aggregate_ok w) as [_ Hall].
  rewrite List.Forall_forall in Hall. destruct (Hall _ Hin) as [Hne Hs]; simpl in Hne, Hs.
  split; [apply report_blocks|]. split; [done|].
  split; [by apply sorted_idx_nodup, Sorted_StronglySorted; [apply idx_lt_trans|]|].
  split.
  - intros [c ->]. unfold report_block. by unfold show_breakdown.
  - intros Hcase. unfold report_block. fold sum.
    assert (show_breakdown counts = true) as ->; [|done].
    unfold show_breakdown. apply orb_true_iff.
    destruct Hcase as [Hlen | (i & c & -> & Hi)].
    + left. by apply Nat.ltb_lt.
    + right. simpl. apply Z.eqb_neq in Hi. by rewrite Hi.
Qed.

Lemma report_breakdown_rule_witness :
  In (lit 1 "y", [(0, 1); (1, 3)])
     (aggregate (run_events [(0%nat, lit 1 "y", 0); (0%nat, lit 1 "y", 1);
                             (0%nat, lit 1 "y", 1); (0%nat, lit 1 "y", 1)] init_world))
  /\ report_block (lit 1 "y") [(0, 1); (1, 3)]
     = sum_line (lit 1 "y") (f64_of_Z (sum_counts [(0, 1); (1, 3)]))
       :: map (pct_line (lit 1 "y") (f64_of_Z (sum_counts [(0, 1); (1, 3)]))) [(0, 1); (1, 3)].
Proof.
  assert (Hin : In (lit 1 "y", [(0, 1); (1, 3)])
     (aggregate (run_events [(0%nat, lit 1 "y", 0); (0%nat, lit 1 "y", 1);
                             (0%nat, lit 1 "y", 1); (0%nat, lit 1 "y", 1)] init_world)))
    by (vm_compute; left; reflexivity).
  split; [exact Hin|].
  apply (report_breakdown_rule _ _ _ Hin). left. simpl. lia.
Defined.

(** C3 (as amended): every line of the report is either the sum line
    ["<name>: <sum>"], the sum being the [u64] total of the name's counts
    (modulo 2^64) printed as an [f64], or a line
    ["<name>[<index>]: <percentage>%"] with [count as f64 / sum * 100.0]
    printed to one decimal place; with fewer than 2^64 calls in total the
    sum is the exact total of the name's counts; on [y] recorded once at
    index 0 and three times at index 1 the report is [y: 4], [y[0]: 25.0%],
    [y[1]: 75.0%]. *)
Theorem report_line_format (w : world) :
  (forall line, In line (report w) ->
     exists name counts,
       In (name, counts) (aggregate w)
       /\ sum_counts counts = fold_right Z.add 0 (map snd counts) mod u64_modulus
       /\ (line = str_bytes name +:+ ": " +:+ fmt_f64_integral (f64_of_Z (sum_counts counts))
           \/ exists i c, In (i, c) counts
              /\ line = str_bytes name +:+ "[" +:+ pretty i +:+ "]: "
                        +:+ fmt_f64_prec1 (f64_mul (f64_div (f64_of_Z c)
                                                    (f64_of_Z (sum_counts counts))) f64_100)
                        +:+ "%"))
  /\ (forall calls name counts, Z.of_nat (length calls) < u64_modulus ->
        In (name, counts) (aggregate (run_events calls init_world)) ->
        sum_counts counts = fold_right Z.add 0 (map snd counts))
  /\ report (run_events [(0%nat, lit 1 "y", 0); (0%nat, lit 1 "y", 1);
                         (0%nat, lit 1 "y", 1); (0%nat, lit 1 "y", 1)] init_world)
     = ["y: 4"; "y[0]: 25.0%"; "y[1]: 75.0%"].
Proof.
  split; [|split; [|vm_compute; reflexivity]].
  - intros line Hline. rewrite report_blocks in Hline.
    apply in_concat in Hline as [blk [Hblk Hline]].
    apply in_map_iff in Hblk as [[name counts] [<- Hin]].
    exists name, counts. split; [done|]. split; [apply sum_counts_mod|].
    unfold report_block in Hline. destruct Hline as [<-|Hline]; [by left|].
    right. destruct (show_breakdown counts); [|done].
    apply in_map_iff in Hline as [[i c] [<- Hic]]. by exists i, c.
  - intros calls name counts Hlen Hin. by apply (aggregate_sum_exact calls name counts).
Qed.

(** C3 counterexample: after 2^63 calls [event!("y", 0)] and 2^63 calls
    [event!("y", 1)] on one thread, 2^64 calls in all, the [u64] sum
    wraps to [0]: the report reads [y: 0], [y[0]: inf%], [y[1]: inf%]. *)
Lemma report_sum_wraps :
  let calls := repeat (0%nat, lit 1 "y", 0) (Z.to_nat (2 ^ 63))
               ++ repeat (0%nat, lit 1 "y", 1) (Z.to_nat (2 ^ 63)) in
  Z.of_nat (length calls) = u64_modulus
  /\ report (run_events calls init_world) = ["y: 0"; "y[0]: inf%"; "y[1]: inf%"].
Proof.
  intros calls. unfold calls. set (N := Z.to_nat (2 ^ 63)).
  assert (HZ : Z.of_nat N = 2 ^ 63) by (unfold N; rewrite Z2Nat.id; lia).
  clearbody N. split.
  { rewrite length_app, !repeat_length, Nat2Z.inj_add, HZ. reflexivity. }
  destruct N as [|a]; [vm_compute in HZ; discriminate HZ|].
  rewrite run_events_app, run_repeat, run_repeat_index1, HZ.
  vm_compute. reflexivity.
Qed.

(** C4: the report lists the names of the merged view in strictly
    ascending byte-lexicographic order, and each name's per-index lines in
    strictly ascending index order. *)
Theorem report_order (w : world) :
  report w = concat (map (fun '(name, counts) => report_block name counts) (aggregate w))
  /\ StronglySorted (fun x y => str_cmp (fst x) (fst y) = Lt) (aggregate w)
  /\ Forall (fun e => StronglySorted (fun x y => fst x < fst y) (snd e)) (aggregate w).
Proof.
  destruct (aggregate_ok w) as [Hs Hall].
  split; [apply report_blocks|]. split.
  - apply (Sorted_StronglySorted name_lt_trans Hs).
  - eapply Forall_impl; [exact Hall|]. intros [name counts] [_ Hc]; simpl in *.
    apply (Sorted_StronglySorted idx_lt_trans Hc).
Qed.

(** C5 (as amended): [print_counts] takes the registry lock first and
    holds it to its end, after all lines are printed; meanwhile it locks
    and unlocks the registered maps one at a time, in registry order. *)
Theorem print_counts_lock_order (w : world) :
  mtrace (run_print_counts w)
  = [AcquireRegistry]
    ++ concat (map (fun a => [AcquireMap a; ReleaseMap a]) (maps w))
    ++ map Println (report w)
    ++ [ReleaseRegistry].
Proof.
  unfold run_print_counts. rewrite print_counts_run, report_blocks. done.
Qed.

(** C5 counterexample: with one registered map, its lock is taken while
    the registry lock is still held. *)
Lemma print_counts_merges_under_registry :
  ~ (forall w, map_locked_under_registry false (mtrace (run_print_counts w)) = false).
Proof.
  intros H. specialize (H (run_events [(0%nat, lit 1 "a", 0)] init_world)).
  vm_compute in H. discriminate H.
Qed.

(** C7: [event!(name)] is [event!(name, 0)]: same resulting state, hence
    the same reports after any later calls. *)
Theorem event_default_eq (t : nat) (name : rstr) (w : world) :
  event_default t name w = event t name 0 w
  /\ forall calls, report (run_events calls (event_default t name w))
                   = report (run_events calls (event t name 0 w)).
Proof. split; [done|]. intros calls. done. Qed.

(** C8: [print_counts] leaves the process state unchanged and only appends
    lines to the output; run twice it prints the same lines twice. *)
Theorem print_counts_read_only (w : world) (tr : list effect) :
  let s1 := snd (print_counts (Machine w tr)) in
  let s2 := snd (print_counts s1) in
  mworld s1 = w /\ mworld s2 = w
  /\ printed (mtrace s1) = printed tr ++ report w
  /\ printed (mtrace s2) = printed tr ++ report w ++ report w.
Proof.
  set (X := [AcquireRegistry]
            ++ concat (map (fun a => [AcquireMap a; ReleaseMap a]) (maps w))
            ++ map Println (concat (map (fun '(name, counts) => report_block name counts)
                                      (aggregate w)))
            ++ [ReleaseRegistry]).
  assert (Hr : forall tr', snd (print_counts (Machine w tr')) = Machine w (tr' ++ X)).
  { intros tr'. rewrite print_counts_run. reflexivity. }
  assert (HX : printed X = report w).
  { unfold X. rewrite report_blocks, !printed_app, printed_locks, printed_map_Println.
    simpl. by rewrite app_nil_r. }
  cbv zeta. rewrite !Hr. cbn [mworld mtrace]. rewrite !printed_app, HX.
  split_and!; try done. by rewrite app_assoc.
Qed.

(** C6 (as amended): on a reachable state, the count of a key in a
    thread's map is below 2^64, and [event!(name, index)] on thread [t]
    raises it by exactly one (from [0] when absent) while it is below
    2^64 - 1, and wraps it to [0] at 2^64 - 1; every other key of that map
    and the map of every other thread are left unchanged. *)
Theorem event_increments (calls : list call) (t : nat) (name : rstr) (index : Z) :
  let w := run_events calls init_world in
  let w' := event t name index w in
  0 <= count_of w t (name, index) < u64_modulus
  /\ (exists m', thread_map w' t = Some m'
       /\ count_in m' (name, index)
          = (if count_of w t (name, index) <? u64_modulus - 1
             then count_of w t (name, index) + 1 else 0)
       /\ forall k, key_eqb k (name, index) = false ->
                   hmap_get k m' = hmap_get k (default [] (thread_map w t)))
  /\ forall t', t' <> t -> thread_map w' t' = thread_map w t'.
Proof.
  intros w w'.
  assert (Hnn : 0 <= count_of w t (name, index) < u64_modulus).
  { unfold w. rewrite count_of_run. apply Z.mod_pos_bound. done. }
  split; [done|].
  destruct (inv_run calls) as [(Hmaps & Hbound & Hinj & Hown) Hthr].
  fold w in Hmaps, Hbound, Hinj, Hown, Hthr.
  unfold w', event, with_thread_counts.
  destruct (thread_counts w !! t) as [a|] eqn:Ht.
  - pose proof (Hthr t) as Hta. rewrite Ht in Hta. destruct Hta as (m & Hm & _).
    assert (Hc0 : count_of w t (name, index) = count_in m (name, index))
      by (unfold count_of, thread_map; rewrite Ht, Hm; done).
    rewrite Hm. unfold thread_map. cbn. rewrite Ht, Hm. split.
    + exists (entry_incr (name, index) m).
      split; [apply list_lookup_insert_eq; by apply (Hbound t)|]. split.
      * rewrite hmap_get_entry_incr_same, <- Hc0. by apply u64_incr_cases.
      * intros k Hk. by apply hmap_get_entry_incr_other.
    + intros t' Hne. destruct (thread_counts w !! t') as [b|] eqn:Ht'; [|done].
      rewrite list_lookup_insert_ne; [done|]. intros <-. apply Hne. by apply (Hinj t' t a).
  - pose proof (Hthr t) as H0. rewrite Ht in H0.
    assert (Hc0 : count_of w t (name, index) = 0)
      by (unfold count_of, thread_map; rewrite Ht; done).
    unfold create_local_map. cbn. rewrite list_lookup_middle by done. cbn.
    unfold thread_map. cbn. rewrite Ht. split.
    + rewrite lookup_insert_eq. exists (entry_incr (name, index) []). split.
      * apply list_lookup_insert_eq. rewrite length_app. simpl. lia.
      * split; [rewrite hmap_get_entry_incr_same, Hc0; reflexivity|].
        intros k Hk. by apply hmap_get_entry_incr_other.
    + intros t' Hne. rewrite lookup_insert_ne by congruence.
      destruct (thread_counts w !! t') as [b|] eqn:Ht'; [|done].
      pose proof (Hbound _ _ Ht') as Hb.
      rewrite list_lookup_insert_ne by lia. by rewrite lookup_app_l.
Qed.

(** C6 counterexample: after 2^64 - 1 calls with one key on one thread,
    one more call brings the count to [0], not to 2^64. *)
Lemma event_wraps_at_u64_max :
  ~ (forall calls t name index,
       count_of (event t name index (run_events calls init_world)) t (name, index)
       = count_of (run_events calls init_world) t (name, index) + 1).
Proof.
  intros H.
  remember (Z.to_nat (u64_modulus - 1)) as N eqn:HN.
  assert (HZ : Z.of_nat N = u64_modulus - 1) by (subst N; rewrite Z2Nat.id; [done|unfold u64_modulus; lia]).
  clear HN.
  specialize (H (repeat (0%nat, lit 1 "a", 0) N) 0%nat (lit 1 "a") 0).
  rewrite <- (run_events_snoc (repeat (0%nat, lit 1 "a", 0) N) (0%nat, lit 1 "a", 0)) in H.
  rewrite !count_of_run, cnt_snoc, cnt_repeat in H.
  rewrite bool_decide_eq_true_2 in H by done.
  rewrite Nat2Z.inj_add, HZ in H. simpl in H.
  replace (u64_modulus - 1 + 1) with u64_modulus in H by lia.
  rewrite Z_mod_same_full in H. rewrite Z.mod_small in H by (unfold u64_modulus; lia).
  unfold u64_modulus in H. lia.
Qed.

(** C9 (as amended): as long as fewer than 2^64 calls have been made in
    total, every count stored in a registered map is at least [1], and the
    [u64] sum of every name of the merged view is strictly positive, so the
    percentage never divides by zero. In general the count of a key in a
    thread's map is the number of calls with that key on that thread modulo
    2^64, so after 2^64 calls with one key on one thread it is [0]. *)
Theorem counts_positive (calls : list call) :
  let w := run_events calls init_world in
  (Z.of_nat (length calls) < u64_modulus ->
     (forall a k c, In a (maps w) -> In (k, c) (map_at w a) -> 1 <= c)
     /\ (forall name counts, In (name, counts) (aggregate w) -> 0 < sum_counts counts))
  /\ (forall t k, count_of w t k = Z.of_nat (cnt t (kc k) calls) mod u64_modulus)
  /\ (forall t nm i,
        count_of (run_events (repeat (t, nm, i) (Z.to_nat u64_modulus)) init_world) t (nm, i) = 0).
Proof.
  intros w. split; [intros Hlen; split|split].
  - intros a k c Ha Hin.
    apply (src_bounds calls (str_bytes (fst k)) (snd k) c Hlen). by exists a, k.
  - intros name counts Hin.
    destruct (aggregate_sum_exact calls name counts Hlen Hin) as [H1 ->]. lia.
  - intros t k. apply count_of_run.
  - intros t nm i. rewrite count_of_run, cnt_repeat, Z2Nat.id by (unfold u64_modulus; lia).
    apply Z_mod_same_full.
Qed.

Lemma counts_positive_witness :
  Z.of_nat (length [(0%nat, lit 1 "a", 0); (1%nat, lit 2 "b", 3)]) < u64_modulus
  /\ 0 < sum_counts [(3, 1)].
Proof.
  assert (H : Z.of_nat (length [(0%nat, lit 1 "a", 0); (1%nat, lit 2 "b", 3)]) < u64_modulus)
    by (vm_compute; reflexivity).
  split; [exact H|].
  destruct (counts_positive [(0%nat, lit 1 "a", 0); (1%nat, lit 2 "b", 3)]) as [Hp _].
  destruct (Hp H) as [_ Hsum]. apply (Hsum (lit 2 "b")).
  vm_compute. right. left. reflexivity.
Defined.

(** C9 counterexample: after 2^64 calls with one key on one thread, that
    key's entry holds the count [0]. *)
Lemma count_wraps_to_zero :
  ~ (forall calls a k c, In a (maps (run_events calls init_world)) ->
       In (k, c) (map_at (run_events calls init_world) a) -> 1 <= c).
Proof.
  intros H.
  remember (Z.to_nat u64_modulus) as N eqn:HN.
  assert (HZ : Z.of_nat N = u64_modulus) by (subst N; rewrite Z2Nat.id; [done|unfold u64_modulus; lia]).
  clear HN. assert (Hpos : 0 < u64_modulus) by (unfold u64_modulus; lia).
  set (calls := repeat (0%nat, lit 1 "a", 0) N).
  destruct (inv_run calls) as [(Hmaps & Hbound & _ & _) Hthr].
  specialize (Hthr 0%nat).
  assert (Hc : cnt 0 (kc (lit 1 "a", 0)) calls = N) by apply cnt_repeat.
  destruct (thread_counts (run_events calls init_world) !! 0%nat) as [a|] eqn:Ht.
  - destruct Hthr as (m & Hm & (_ & Hval & Hcov)).
    destruct (Hcov (kc (lit 1 "a", 0))) as (k & c & Hin & Hk); [rewrite Hc; lia|].
    destruct (Hval _ _ Hin) as [Hcv _]. rewrite Hk, Hc, HZ, Z_mod_same_full in Hcv. subst c.
    assert (1 <= 0); [|lia].
    apply (H calls a k).
    + rewrite Hmaps. apply in_seq. pose proof (Hbound _ _ Ht). lia.
    + unfold map_at. by rewrite Hm.
  - specialize (Hthr (kc (lit 1 "a", 0))). rewrite Hc in Hthr. subst N. lia.
Qed.

(** C10: two calls on one thread whose names are distinct literals with
    equal contents update one entry: the thread's map keeps one entry per
    key contents, and its count grows by two. *)
Theorem equal_contents_same_key (calls : list call) (t : nat) (n1 n2 : rstr) (i : Z)
    (Hbytes : str_bytes n1 = str_bytes n2) :
  let w0 := run_events calls init_world in
  let w := event t n2 i (event t n1 i w0) in
  exists m k c, thread_map w t = Some m
    /\ NoDup (map (fun e => kc (fst e)) m)
    /\ List.filter (fun e => key_eqb (fst e) (n1, i)) m = [(k, c)]
    /\ c = (count_of w0 t (n1, i) + 2) mod u64_modulus.
Proof.
  intros w0 w.
  assert (Hw : w = run_events (calls ++ [(t, n1, i)] ++ [(t, n2, i)]) init_world).
  { unfold w, w0. rewrite app_assoc, !run_events_snoc. done. }
  set (calls' := calls ++ [(t, n1, i)] ++ [(t, n2, i)]) in Hw.
  assert (Hq : kc (n2, i) = kc (n1, i)) by (unfold kc; simpl; by rewrite Hbytes).
  assert (Hc : cnt t (kc (n1, i)) calls' = (cnt t (kc (n1, i)) calls + 2)%nat).
  { unfold calls'. rewrite app_assoc, cnt_snoc, cnt_snoc.
    rewrite !bool_decide_eq_true_2 by done. lia. }
  destruct (inv_run calls') as [_ Hthr]. rewrite <- Hw in Hthr. specialize (Hthr t).
  unfold thread_map. destruct (thread_counts w !! t) as [a|] eqn:Ht.
  - destruct Hthr as (m & Hm & (Hnd & Hval & Hcov)).
    destruct (Hcov (kc (n1, i))) as (k & c & Hin & Hk); [rewrite Hc; lia|].
    exists m, k, c. rewrite Hm. split; [done|]. split; [done|].
    split; [by apply filter_single|].
    destruct (Hval _ _ Hin) as [-> _]. rewrite Hk, Hc.
    unfold w0. rewrite count_of_run, Zplus_mod_idemp_l, Nat2Z.inj_add. done.
  - specialize (Hthr (kc (n1, i))). rewrite Hc in Hthr. lia.
Qed.

Lemma equal_contents_same_key_witness :
  str_bytes (lit 1 "a") = str_bytes (lit 2 "a")
  /\ exists m k c, thread_map (event 0 (lit 2 "a") 0 (event 0 (lit 1 "a") 0
                     (run_events [] init_world))) 0 = Some m
       /\ NoDup (map (fun e => kc (fst e)) m)
       /\ List.filter (fun e => key_eqb (fst e) (lit 1 "a", 0)) m = [(k, c)]
       /\ c = (count_of (run_events [] init_world) 0 (lit 1 "a", 0) + 2) mod u64_modulus.
Proof.
  assert (H : str_bytes (lit 1 "a") = str_bytes (lit 2 "a")) by reflexivity.
  split; [exact H|]. exact (equal_contents_same_key [] 0 (lit 1 "a") (lit 2 "a") 0 H).
Defined.


(** ** Further properties *)

(** X1: After any sequence of [event!] calls, [MAPS] holds one map per
    thread that called [event!], in the order of the threads' first calls,
    and [THREAD_COUNTS] of the [a]-th such thread points at the [a]-th
    registered map. *)
Theorem registry_one_map_per_thread (calls : list call) :
  let w := run_events calls init_world in
  maps w = seq 0 (length (first_threads calls))
  /\ forall t a, thread_counts w !! t = Some a <-> first_threads calls !! a = Some t.
Proof.
  intros w. destruct (registry_run calls) as [Hlen Hiff].
  destruct (inv_run calls) as [(Hmaps & _) _]. fold w in Hlen, Hiff, Hmaps.
  split; [by rewrite Hmaps, Hlen|done].
Qed.

(** X2: From a reachable state, [event!] on thread [t] appends one new map
    at the end of [MAPS] if [t] has no map yet, and leaves [MAPS]
    unchanged otherwise. *)
Theorem event_registers_on_first_call (calls : list call) (t : nat) (n : rstr) (i : Z) :
  let w := run_events calls init_world in
  maps (event t n i w)
  = maps w ++ match thread_counts w !! t with Some _ => [] | None => [length (maps w)] end.
Proof.
  intros w. destruct (inv_run calls) as [(Hmaps & Hbound & _ & _) Hthr]. fold w in Hmaps, Hbound, Hthr.
  specialize (Hthr t). unfold event, with_thread_counts.
  destruct (thread_counts w !! t) as [a|] eqn:Ht.
  - destruct Hthr as (m & Hm & _). rewrite Hm. simpl. by rewrite app_nil_r.
  - unfold create_local_map. simpl. rewrite list_lookup_middle by done. simpl.
    by rewrite Hmaps, length_seq.
Qed.

(** X3: When each registered map has distinct keys, the count that
    [print_counts] keeps for [(name, index)] is the count in the last
    registered map that holds that key, and absent if no map holds it. *)
Theorem merge_last_map_wins (w : world) (nm : rstr) (i : Z)
    (Hd : forall a, In a (maps w) -> keys_distinct (map_at w a)) :
  events_get nm i (aggregate w) = last_count w (nm, i).
Proof. by apply events_get_aggregate. Qed.

Lemma merge_last_map_wins_witness :
  let w := run_events [(0%nat, lit 1 "a", 0); (1%nat, lit 2 "a", 0); (1%nat, lit 2 "a", 0)] init_world in
  (forall a, In a (maps w) -> keys_distinct (map_at w a))
  /\ events_get (lit 1 "a") 0 (aggregate w) = last_count w (lit 1 "a", 0)
  /\ last_count w (lit 1 "a", 0) = Some 2.
Proof.
  intros w.
  assert (Hd : forall a, In a (maps w) -> keys_distinct (map_at w a))
    by (intros a Ha; by apply maps_run_distinct).
  split; [exact Hd|]. split; [exact (merge_last_map_wins w (lit 1 "a") 0 Hd)|].
  vm_compute. reflexivity.
Defined.

(** X4: After any sequence of [event!] calls, the merged count for [(name,
    index)] is the number of such calls made by the last thread, in order
    of first call, that made one, modulo 2^64. *)
Theorem report_count_last_thread (calls : list call) (nm : rstr) (i : Z) :
  events_get nm i (aggregate (run_events calls init_world)) = last_thread_count calls (nm, i).
Proof. apply events_get_run. Qed.

(** X5: If all calls with the contents of [(name, index)] come from one
    thread, the merged count for that key is their total number modulo
    2^64, and absent when there is none. *)
Theorem report_count_single_thread (calls : list call) (t0 : nat) (nm : rstr) (i : Z)
    (Hone : forall t n j, In (t, n, j) calls -> (str_bytes n, j) = (str_bytes nm, i) -> t = t0) :
  events_get nm i (aggregate (run_events calls init_world))
  = if (cnt_all (str_bytes nm, i) calls =? 0)%nat then None
    else Some (Z.of_nat (cnt_all (str_bytes nm, i) calls) mod u64_modulus).
Proof.
  rewrite events_get_run. unfold last_thread_count.
  rewrite (cnt_all_one_thread calls t0) by done. unfold kc; simpl.
  destruct (cnt t0 (str_bytes nm, i) calls) as [|c] eqn:Hc.
  - simpl. apply fold_left_id. intros acc t. simpl.
    destruct (decide (t = t0)) as [->|Hne]; [by rewrite Hc|].
    by rewrite (cnt_other_thread calls t0 t) by done.
  - rewrite (fold_left_one _ t0 (Some (Z.of_nat (S c) mod u64_modulus))).
    + rewrite bool_decide_eq_true_2; [done|]. apply (cnt_pos_first_threads calls t0 (str_bytes nm, i)).
      lia.
    + intros acc t. simpl. case_bool_decide as Ht; [subst t; by rewrite Hc|].
      by rewrite (cnt_other_thread calls t0 t) by done.
Qed.

Lemma report_count_single_thread_witness :
  let calls := [(0%nat, lit 1 "a", 0); (1%nat, lit 2 "b", 0); (0%nat, lit 1 "a", 0)] in
  (forall (t : nat) (n : rstr) (j : Z), In (t, n, j) calls -> (str_bytes n, j) = (str_bytes (lit 1 "a"), 0) -> t = 0%nat)
  /\ events_get (lit 1 "a") 0 (aggregate (run_events calls init_world))
     = if (cnt_all (str_bytes (lit 1 "a"), 0%Z) calls =? 0)%nat then None
       else Some (Z.of_nat (cnt_all (str_bytes (lit 1 "a"), 0) calls) mod u64_modulus).
Proof.
  intros calls.
  assert (Hone : forall (t : nat) (n : rstr) (j : Z), In (t, n, j) calls ->
                   (str_bytes n, j) = (str_bytes (lit 1 "a"), 0) -> t = 0%nat).
  { intros t n j Hin Heq. simpl in Hin.
    destruct Hin as [H|[H|[H|[]]]]; inversion H; subst; try reflexivity.
    vm_compute in Heq. congruence. }
  split; [exact Hone|]. exact (report_count_single_thread calls 0 (lit 1 "a") 0 Hone).
Defined.

(** X6: With fewer than 2^64 calls in total, a key is absent from the
    merged [events] exactly when no call used it, and a present count lies
    between 1 and the true number of calls with that key. *)
Theorem report_count_bounds (calls : list call) (nm : rstr) (i : Z)
    (Hlen : Z.of_nat (length calls) < u64_modulus) :
  let ev := aggregate (run_events calls init_world) in
  (events_get nm i ev = None <-> cnt_all (str_bytes nm, i) calls = 0%nat)
  /\ forall c, events_get nm i ev = Some c -> 1 <= c <= Z.of_nat (cnt_all (str_bytes nm, i) calls).
Proof.
  intros ev. unfold ev. rewrite events_get_run. split.
  - apply last_thread_count_None.
  - intros c Hc. destruct (last_thread_count_Some _ _ _ Hc) as (t & Hpos & ->).
    pose proof (cnt_le_all t (kc (nm, i)) calls).
    pose proof (cnt_all_le_length (kc (nm, i)) calls).
    unfold kc in *; simpl in *. rewrite Z.mod_small by lia. lia.
Qed.

Lemma report_count_bounds_witness :
  let calls := [(0%nat, lit 1 "a", 0); (1%nat, lit 2 "a", 0); (1%nat, lit 2 "a", 0)] in
  Z.of_nat (length calls) < u64_modulus
  /\ ((events_get (lit 1 "a") 0 (aggregate (run_events calls init_world)) = None
       <-> cnt_all (str_bytes (lit 1 "a"), 0) calls = 0%nat)
     /\ forall c, events_get (lit 1 "a") 0 (aggregate (run_events calls init_world)) = Some c ->
         1 <= c <= Z.of_nat (cnt_all (str_bytes (lit 1 "a"), 0) calls)).
Proof.
  intros calls.
  assert (H : Z.of_nat (length calls) < u64_modulus) by (vm_compute; reflexivity).
  split; [exact H|]. exact (report_count_bounds calls (lit 1 "a") 0 H).
Defined.

(** X7: [print_counts] prints nothing exactly when no [event!] call was
    made. *)
Theorem report_empty_iff_no_events (calls : list call) :
  report (run_events calls init_world) = [] <-> calls = [].
Proof.
  split; [|intros ->; reflexivity].
  intros Hrep. destruct calls as [|[[t n] i] r] eqn:Ecalls; [done|]. exfalso.
  rewrite <- Ecalls in Hrep.
  destruct (inv_run calls) as [(Hmaps & Hbound & _ & _) Hthr]. specialize (Hthr t).
  assert (Hc : (1 <= cnt t (kc (n, i)) calls)%nat).
  { rewrite Ecalls. simpl. rewrite bool_decide_eq_true_2 by done. lia. }
  destruct (thread_counts (run_events calls init_world) !! t) as [a|] eqn:Ht.
  - destruct Hthr as (m & Hm & (_ & _ & Hcov)).
    destruct (Hcov _ Hc) as (k & c & Hin & _).
    assert (Hne : aggregate (run_events calls init_world) <> []).
    { apply (aggregate_nonempty (run_events calls init_world) a).
      + rewrite Hmaps. apply in_seq. pose proof (Hbound _ _ Ht). lia.
      + unfold map_at. rewrite Hm. intros ->. destruct Hin. }
    rewrite report_blocks in Hrep.
    destruct (aggregate (run_events calls init_world)) as [|[nm counts] ev]; [done|].
    simpl in Hrep. unfold report_block in Hrep. discriminate Hrep.
  - rewrite Hthr in Hc. lia.
Qed.

(** X8: For an integer sum below 2^53, the total line prints the sum's
    exact decimal digits after the name and a colon. *)
Theorem sum_line_exact (nm : rstr) (s : Z) (Hs : 0 <= s < 2 ^ 53) :
  sum_line nm (f64_of_Z s) = str_bytes nm +:+ ": " +:+ pretty s.
Proof. unfold sum_line. by rewrite fmt_f64_integral_small. Qed.

Lemma sum_line_exact_witness :
  0 <= 1234 < 2 ^ 53 /\ sum_line (lit 1 "a") (f64_of_Z 1234) = "a: 1234".
Proof.
  assert (H : 0 <= 1234 < 2 ^ 53) by (split; vm_compute; congruence).
  split; [exact H|]. rewrite (sum_line_exact (lit 1 "a") 1234 H). reflexivity.
Defined.

(** X9: A name whose only recorded index [i] is non-zero, with a count [c]
    from 1 to 2^53 - 1, prints its total [c] and one breakdown line
    [name[i]: 100.0%]. *)
Theorem report_block_single_index (nm : rstr) (i c : Z) (Hi : i <> 0) (Hc : 0 < c < 2 ^ 53) :
  report_block nm [(i, c)]
  = [str_bytes nm +:+ ": " +:+ pretty c; str_bytes nm +:+ "[" +:+ pretty i +:+ "]: 100.0%"].
Proof.
  assert (Hsum : sum_counts [(i, c)] = c).
  { unfold sum_counts, u64_add. simpl. apply Z.mod_small. unfold u64_modulus. lia. }
  assert (Hb : show_breakdown [(i, c)] = true).
  { unfold show_breakdown. simpl. by rewrite (proj2 (Z.eqb_neq i 0) Hi). }
  unfold report_block. rewrite Hsum, Hb. simpl.
  unfold sum_line, pct_line. rewrite fmt_f64_integral_small by lia. simpl.
  rewrite f64_div_self by done. done.
Qed.

Lemma report_block_single_index_witness :
  2 <> 0 /\ 0 < 7 < 2 ^ 53
  /\ report_block (lit 1 "a") [(2, 7)] = ["a: 7"; "a[2]: 100.0%"].
Proof.
  assert (Hi : 2 <> 0) by congruence.
  assert (Hc : 0 < 7 < 2 ^ 53) by (split; vm_compute; reflexivity).
  split; [exact Hi|]. split; [exact Hc|].
  rewrite (report_block_single_index (lit 1 "a") 2 7 Hi Hc). reflexivity.
Defined.

(** X10: [k] calls [event!(name)] on one thread, with 0 < k < 2^53, make
    [print_counts] print exactly one line, [name: k]. *)
Theorem report_repeat_default (t : nat) (nm : rstr) (k : nat)
    (Hk : (0 < k)%nat /\ Z.of_nat k < 2 ^ 53) :
  report (run_events (repeat (t, nm, 0) k) init_world)
  = [str_bytes nm +:+ ": " +:+ pretty (Z.of_nat k)].
Proof.
  destruct k as [|k]; [lia|].
  assert (Hc : Z.of_nat (S k) mod u64_modulus = Z.of_nat (S k)).
  { apply Z.mod_small. unfold u64_modulus. lia. }
  rewrite report_blocks, run_repeat. unfold aggregate, map_at. simpl.
  rewrite Hc. unfold report_block, sum_counts, u64_add. simpl.
  rewrite Z.mod_small by (unfold u64_modulus; lia).
  unfold sum_line. rewrite fmt_f64_integral_small by lia. done.
Qed.

Lemma report_repeat_default_witness :
  ((0 < 3)%nat /\ Z.of_nat 3 < 2 ^ 53)
  /\ report (run_events (repeat (0%nat, lit 1 "x", 0) 3) init_world) = ["x: 3"].
Proof.
  assert (Hk : (0 < 3)%nat /\ Z.of_nat 3 < 2 ^ 53) by (split; [lia|vm_compute; reflexivity]).
  split; [exact Hk|]. rewrite (report_repeat_default 0 (lit 1 "x") 3 Hk). reflexivity.
Defined.
